(** * ArborTrail: the round lifecycle controller and the globe renderer

    A shallow embedding of [src/App.tsx] (the [App] component: [initGame],
    [startRound], [handleGuess], [handleRegenerateFact], [nextRound] and the
    click handlers of the rendered tree), of [services/geminiService.ts]
    ([fetchNewTrees], [fetchNewFunFact], [generateTreeImage]) and of
    [components/Globe.tsx] (the [render] loop and its marker test).

    React state is one record, [State]; a handler is a computation in a
    small state-and-exception monad [M]; everything the outside world
    decides during one handler (the answers of the content provider, the
    clock, the order a random comparator produces) is read from a [World].
    A [string] holds the UTF-8 bytes of a text. *)

From Stdlib Require Import List String Ascii Bool Arith ZArith NArith QArith.
From Stdlib Require Import Lia Permutation DecimalString DecimalN.
From Stdlib Require Import Reals Lra.
Import ListNotations.

Local Open Scope string_scope.
Local Open Scope list_scope.
Local Open Scope nat_scope.

(* ================================================================== *)
(** ** types.ts *)

Record GeoLocation := mkGeoLocation {
  lat : Q;
  lng : Q;
  label : option string
}.

Record TreeData := mkTreeData {
  id : string;
  commonName : string;
  scientificName : string;
  autumnDescription : string;
  springDescription : string;
  habitats : list GeoLocation;
  funFact : string
}.

Record GameRound := mkGameRound {
  targetTree : TreeData;
  options : list string;
  autumnImageUrl : string;
  springImageUrl : option string
}.

Inductive Difficulty := EASY | MEDIUM | HARD.

Inductive GameStatus :=
  IDLE | DIFFICULTY_SELECTION | LOADING | GUESSING | RESULT | ERROR.

Definition GameStatus_eqb (a b : GameStatus) : bool :=
  match a, b with
  | IDLE, IDLE | DIFFICULTY_SELECTION, DIFFICULTY_SELECTION
  | LOADING, LOADING | GUESSING, GUESSING | RESULT, RESULT | ERROR, ERROR => true
  | _, _ => false
  end.

(** The string value of a [Difficulty] member ([EASY = 'Easy'], ...). *)
Definition Difficulty_value (d : Difficulty) : string :=
  match d with EASY => "Easy" | MEDIUM => "Medium" | HARD => "Hard" end.

Inductive Season := autumn | spring.

(* ================================================================== *)
(** ** The component state

    One field per [useState] cell of [App]. *)

Record State := mkState {
  status : GameStatus;
  difficulty : option Difficulty;
  currentRound : option GameRound;
  pool : list TreeData;
  score : nat;
  selectedOption : option string;
  isCorrect : option bool;
  loadingStep : string;
  isFactLoading : bool
}.

(** The initial values passed to [useState]. *)
Definition initialState : State :=
  {| status := DIFFICULTY_SELECTION; difficulty := None; currentRound := None;
     pool := []; score := 0; selectedOption := None; isCorrect := None;
     loadingStep := EmptyString; isFactLoading := false |}.

(* ================================================================== *)
(** ** A state-and-exception monad for the handlers

    A handler either returns or throws; in both cases the state updates it
    made before are kept (a [setX] call is not undone by a later throw). *)

Inductive Error :=
| TypeError                      (* a property read on [undefined] *)
| ProviderError (msg : string).  (* a rejected provider call *)

Inductive Outcome (A : Type) :=
| Returned (a : A) (s : State)
| Thrown (e : Error) (s : State).
Arguments Returned {A} a s.
Arguments Thrown {A} e s.

Definition M (A : Type) : Type := State -> Outcome A.

Definition ret {A} (a : A) : M A := fun s => Returned a s.

Definition throw {A} (e : Error) : M A := fun s => Thrown e s.

Definition bind {A B} (c : M A) (k : A -> M B) : M B :=
  fun s => match c s with
           | Returned a s' => k a s'
           | Thrown e s' => Thrown e s'
           end.

(** [try { body } catch (error) { handler }] *)
Definition try_catch {A} (body : M A) (handler : Error -> M A) : M A :=
  fun s => match body s with
           | Returned a s' => Returned a s'
           | Thrown e s' => handler e s'
           end.

(** [try { body } finally { final }] *)
Definition try_finally {A} (body : M A) (final : M unit) : M A :=
  fun s => match body s with
           | Returned a s' =>
               match final s' with
               | Returned _ s'' => Returned a s''
               | Thrown e s'' => Thrown e s''
               end
           | Thrown e s' =>
               match final s' with
               | Returned _ s'' => Thrown e s''
               | Thrown e' s'' => Thrown e' s''
               end
           end.

Declare Scope handler_scope.
Delimit Scope handler_scope with handler.
Notation "x <- c ;; k" := (bind c (fun x => k))
  (at level 61, c at next level, right associativity) : handler_scope.
Notation "c ;; k" := (bind c (fun _ => k))
  (at level 61, right associativity) : handler_scope.
Notation "'try' b 'catch' h" := (try_catch b h)
  (at level 60, b at level 9, h at level 9) : handler_scope.
Local Open Scope handler_scope.

(** The state the handler leaves behind, however it ended. *)
Definition finalState {A} (o : Outcome A) : State :=
  match o with Returned _ s => s | Thrown _ s => s end.

Definition get : M State := fun s => Returned s s.

(** The [useState] setters. *)
Definition setStatus (v : GameStatus) : M unit := fun s =>
  Returned tt {| status := v; difficulty := difficulty s;
    currentRound := currentRound s; pool := pool s; score := score s;
    selectedOption := selectedOption s; isCorrect := isCorrect s;
    loadingStep := loadingStep s; isFactLoading := isFactLoading s |}.

Definition setDifficulty (v : option Difficulty) : M unit := fun s =>
  Returned tt {| status := status s; difficulty := v;
    currentRound := currentRound s; pool := pool s; score := score s;
    selectedOption := selectedOption s; isCorrect := isCorrect s;
    loadingStep := loadingStep s; isFactLoading := isFactLoading s |}.

(** [setCurrentRound] is used with a value and with an updater
    [prev => ...]; a value [v] is the updater [fun _ => v]. *)
Definition setCurrentRound (f : option GameRound -> option GameRound) : M unit :=
  fun s =>
  Returned tt {| status := status s; difficulty := difficulty s;
    currentRound := f (currentRound s); pool := pool s; score := score s;
    selectedOption := selectedOption s; isCorrect := isCorrect s;
    loadingStep := loadingStep s; isFactLoading := isFactLoading s |}.

Definition setPool (v : list TreeData) : M unit := fun s =>
  Returned tt {| status := status s; difficulty := difficulty s;
    currentRound := currentRound s; pool := v; score := score s;
    selectedOption := selectedOption s; isCorrect := isCorrect s;
    loadingStep := loadingStep s; isFactLoading := isFactLoading s |}.

Definition setScore (f : nat -> nat) : M unit := fun s =>
  Returned tt {| status := status s; difficulty := difficulty s;
    currentRound := currentRound s; pool := pool s; score := f (score s);
    selectedOption := selectedOption s; isCorrect := isCorrect s;
    loadingStep := loadingStep s; isFactLoading := isFactLoading s |}.

Definition setSelectedOption (v : option string) : M unit := fun s =>
  Returned tt {| status := status s; difficulty := difficulty s;
    currentRound := currentRound s; pool := pool s; score := score s;
    selectedOption := v; isCorrect := isCorrect s;
    loadingStep := loadingStep s; isFactLoading := isFactLoading s |}.

Definition setIsCorrect (v : option bool) : M unit := fun s =>
  Returned tt {| status := status s; difficulty := difficulty s;
    currentRound := currentRound s; pool := pool s; score := score s;
    selectedOption := selectedOption s; isCorrect := v;
    loadingStep := loadingStep s; isFactLoading := isFactLoading s |}.

Definition setLoadingStep (v : string) : M unit := fun s =>
  Returned tt {| status := status s; difficulty := difficulty s;
    currentRound := currentRound s; pool := pool s; score := score s;
    selectedOption := selectedOption s; isCorrect := isCorrect s;
    loadingStep := v; isFactLoading := isFactLoading s |}.

Definition setIsFactLoading (v : bool) : M unit := fun s =>
  Returned tt {| status := status s; difficulty := difficulty s;
    currentRound := currentRound s; pool := pool s; score := score s;
    selectedOption := selectedOption s; isCorrect := isCorrect s;
    loadingStep := loadingStep s; isFactLoading := v |}.

(* ================================================================== *)
(** ** The outside world

    What one handler run observes from outside the component.  The
    functions are indexed by what the code passes to the call, so that a
    theorem quantified over every [World] covers every behaviour of the
    provider, of the clock and of the random comparator. *)

(** An element of the JSON array the model answers with: a [TreeData]
    without its [id]. *)
Record TreeJson := mkTreeJson {
  j_commonName : string;
  j_scientificName : string;
  j_autumnDescription : string;
  j_springDescription : string;
  j_habitats : list GeoLocation;
  j_funFact : string
}.

(** A part of an image response; [inlineData] holds the base64 payload
    when the part is an image. *)
Record Part := mkPart { inlineData : option string }.

Record World := mkWorld {
  (** [JSON.parse(response.text)] of the tree-list request for a difficulty
      (the prompt is a function of the difficulty); [None] when the request
      rejects or the text does not parse. *)
  treeListResponse : Difficulty -> option (list TreeJson);
  (** [response.candidates?.[0]?.content?.parts || []] of the image request
      for a description and a season; [None] when the request rejects. *)
  imageResponse : string -> Season -> option (list Part);
  (** [response.text] of the fun-fact request; [None] when it rejects. *)
  funFactResponse : string -> string -> option string;
  (** The value of the [n]-th [Date.now()] read during the handler. *)
  Date_now : nat -> N;
  (** [array.sort(() => 0.5 - Math.random())]: the comparator ignores its
      arguments, so the order is whatever the engine's sort makes of the
      random signs it is given. *)
  randomSortTrees : list TreeData -> list TreeData;
  randomSortLabels : list string -> list string
}.

(** [Array.prototype.sort] rearranges the elements of the array it is
    given; it neither drops nor duplicates one. *)
Definition sortPermutes (w : World) : Prop :=
  (forall l, Permutation (randomSortTrees w l) l) /\
  (forall l, Permutation (randomSortLabels w l) l).

(* ================================================================== *)
(** ** JavaScript helpers *)

(** Template-literal rendering of a non-negative integer. *)
Definition Number_toString (n : N) : string :=
  NilEmpty.string_of_uint (N.to_uint n).

Definition toLowerCase_ascii (c : ascii) : ascii :=
  let n := nat_of_ascii c in
  if (65 <=? n) && (n <=? 90) then ascii_of_nat (n + 32) else c.

Fixpoint toLowerCase (s : string) : string :=
  match s with
  | EmptyString => EmptyString
  | String c r => String (toLowerCase_ascii c) (toLowerCase r)
  end.

(** [String.prototype.trim] removes, at both ends, every code point that
    ECMAScript counts as white space or as a line terminator:
    U+0009..U+000D, U+0020, U+00A0, U+1680, U+2000..U+200A, U+2028, U+2029,
    U+202F, U+205F, U+3000 and U+FEFF.  A [string] here holds the UTF-8
    bytes of the text, so that each of these code points is the sequence of
    one, two or three bytes tested below. *)
Definition isWhiteSpace (c : ascii) : bool :=
  let n := nat_of_ascii c in
  (n =? 32) || ((9 <=? n) && (n <=? 13)).

(** U+00A0 is the two bytes 194, 160. *)
Definition isWhiteSpace2 (c1 c2 : ascii) : bool :=
  (nat_of_ascii c1 =? 194) && (nat_of_ascii c2 =? 160).

(** U+1680 is the three bytes 225, 154, 128; U+2000 to U+200A are 226, 128
    and a byte from 128 to 138; U+2028, U+2029 and U+202F are 226, 128 and
    168, 169 or 175; U+205F is 226, 129, 159; U+3000 is 227, 128, 128;
    U+FEFF is 239, 187, 191. *)
Definition isWhiteSpace3 (c1 c2 c3 : ascii) : bool :=
  let a := nat_of_ascii c1 in
  let b := nat_of_ascii c2 in
  let c := nat_of_ascii c3 in
  ((a =? 225) && (b =? 154) && (c =? 128))
  || ((a =? 226) && (b =? 128) &&
      (((128 <=? c) && (c <=? 138)) || (c =? 168) || (c =? 169) || (c =? 175)))
  || ((a =? 226) && (b =? 129) && (c =? 159))
  || ((a =? 227) && (b =? 128) && (c =? 128))
  || ((a =? 239) && (b =? 187) && (c =? 191)).

Fixpoint trimStart (s : string) : string :=
  match s with
  | EmptyString => EmptyString
  | String c1 r1 =>
      if isWhiteSpace c1 then trimStart r1
      else
        match r1 with
        | EmptyString => s
        | String c2 r2 =>
            if isWhiteSpace2 c1 c2 then trimStart r2
            else
              match r2 with
              | EmptyString => s
              | String c3 r3 =>
                  if isWhiteSpace3 c1 c2 c3 then trimStart r3 else s
              end
        end
  end.

Fixpoint string_rev (s acc : string) : string :=
  match s with
  | EmptyString => acc
  | String c r => string_rev r (String c acc)
  end.

(** The same walk from the other end: [s] is the text read backwards, so
    that the bytes of a code point come last byte first. *)
Fixpoint trimStart_backwards (s : string) : string :=
  match s with
  | EmptyString => EmptyString
  | String c1 r1 =>
      if isWhiteSpace c1 then trimStart_backwards r1
      else
        match r1 with
        | EmptyString => s
        | String c2 r2 =>
            if isWhiteSpace2 c2 c1 then trimStart_backwards r2
            else
              match r2 with
              | EmptyString => s
              | String c3 r3 =>
                  if isWhiteSpace3 c3 c2 c1 then trimStart_backwards r3 else s
              end
        end
  end.

Definition trimEnd (s : string) : string :=
  string_rev (trimStart_backwards (string_rev s EmptyString)) EmptyString.

Definition trim (s : string) : string := trimEnd (trimStart s).

(** [array.map((x, index) => f(x, index))] *)
Fixpoint mapi_from {A B} (f : A -> nat -> B) (l : list A) (index : nat) : list B :=
  match l with
  | [] => []
  | x :: r => f x index :: mapi_from f r (S index)
  end.

Definition mapi {A B} (f : A -> nat -> B) (l : list A) : list B :=
  mapi_from f l 0.

(** [array.findIndex(p)]: the index of the first element satisfying [p],
    [-1] when there is none. *)
Fixpoint findIndex_from {A} (p : A -> bool) (l : list A) (index : Z) : Z :=
  match l with
  | [] => (-1)%Z
  | x :: r => if p x then index else findIndex_from p r (index + 1)%Z
  end.

Definition findIndex {A} (p : A -> bool) (l : list A) : Z :=
  findIndex_from p l 0%Z.

(** [array[i]] for an integer [i]: [undefined] out of range. *)
Definition at_index {A} (l : list A) (i : Z) : option A :=
  if (i <? 0)%Z then None else nth_error l (Z.to_nat i).

(** [array.slice(0, n)] *)
Definition slice0 {A} (n : nat) (l : list A) : list A := firstn n l.

(** [a || b] on a nullable string: [null] and the empty string are falsy. *)
Definition or_else (a : option string) (b : string) : string :=
  match a with
  | Some (String c r) => String c r
  | Some EmptyString | None => b
  end.

(** Reading a property of a value that may be [undefined]. *)
Definition deref {A} (x : option A) : M A :=
  match x with Some a => ret a | None => throw TypeError end.

(* ================================================================== *)
(** ** services/geminiService.ts *)

Definition withId (t : TreeJson) (i : string) : TreeData :=
  {| id := i; commonName := j_commonName t;
     scientificName := j_scientificName t;
     autumnDescription := j_autumnDescription t;
     springDescription := j_springDescription t;
     habitats := j_habitats t; funFact := j_funFact t |}.

(** [`tree-${Date.now()}-${index}`] *)
Definition treeId (now : N) (index : nat) : string :=
  ("tree-" ++ Number_toString now ++ "-" ++ Number_toString (N.of_nat index))%string.

(** [data.map((t, index) => ({ ...t, id: `tree-${Date.now()}-${index}` }))] *)
Definition assignIds (w : World) (data : list TreeJson) : list TreeData :=
  mapi (fun t index => withId t (treeId (Date_now w index) index)) data.

Definition fetchNewTrees (w : World) (d : Difficulty) : M (list TreeData) :=
  match treeListResponse w d with
  | None => throw (ProviderError "Failed to parse tree data")
  | Some data => ret (assignIds w data)
  end.

Definition fetchNewFunFact (w : World) (common scientific : string) : M string :=
  match funFactResponse w common scientific with
  | None => throw (ProviderError "fetchNewFunFact")
  | Some text => ret (trim text)
  end.

Definition generateTreeImage (w : World) (description : string) (season : Season)
  : M string :=
  match imageResponse w description season with
  | None => throw (ProviderError "generateContent")
  | Some parts =>
      match find (fun p => match inlineData p with Some _ => true | None => false end)
                 parts with
      | Some {| inlineData := Some data |} =>
          ret ("data:image/png;base64," ++ data)%string
      | _ => throw (ProviderError "No image data returned from Gemini")
      end
  end.

(* ================================================================== *)
(** ** App.tsx: the handlers *)

(** The two [sort]/[slice]/[map] pipelines of [startRound]. *)
Definition distractorsOf (w : World) (target : TreeData) (currentPool : list TreeData)
  : list string :=
  map commonName
    (slice0 2
       (randomSortTrees w
          (filter (fun t => negb (String.eqb (id t) (id target))) currentPool))).

Definition optionsOf (w : World) (target : TreeData) (currentPool : list TreeData)
  : list string :=
  randomSortLabels w (commonName target :: distractorsOf w target currentPool).

(** [target] is [trees[0]] or [pool[nextIdx]], hence possibly [undefined];
    reading [target.autumnDescription] then throws inside the [try]. *)
Definition startRound (w : World) (target : option TreeData)
  (currentPool : list TreeData) : M unit :=
  setStatus LOADING ;;
  setLoadingStep "Isolating seasonal markers for the next specimen..." ;;
  try (
    t <- deref target ;;
    autumnImg <- generateTreeImage w (autumnDescription t) autumn ;;
    let options := optionsOf w t currentPool in
    setCurrentRound (fun _ => Some {| targetTree := t; options := options;
                                      autumnImageUrl := autumnImg;
                                      springImageUrl := None |}) ;;
    setSelectedOption None ;;
    setIsCorrect None ;;
    setStatus GUESSING
  ) catch (fun _ => setStatus ERROR).

Definition initGame (w : World) (selectedDifficulty : Difficulty) : M unit :=
  try (
    setDifficulty (Some selectedDifficulty) ;;
    setStatus LOADING ;;
    setLoadingStep ("Stepping onto the "
                    ++ toLowerCase (Difficulty_value selectedDifficulty)
                    ++ " trail...")%string ;;
    trees <- fetchNewTrees w selectedDifficulty ;;
    setPool trees ;;
    startRound w (at_index trees 0) trees
  ) catch (fun _ => setStatus ERROR).

Definition handleGuess (w : World) (choice : string) : M unit :=
  s <- get ;;
  match currentRound s with
  | None => ret tt
  | Some round =>
      setSelectedOption (Some choice) ;;
      let correct := String.eqb choice (commonName (targetTree round)) in
      setIsCorrect (Some correct) ;;
      if correct then
        setScore (fun prev => prev + 1) ;;
        setStatus LOADING ;;
        setLoadingStep "Waiting for the first light of spring..." ;;
        try (
          springImg <- generateTreeImage w (springDescription (targetTree round)) spring ;;
          setCurrentRound (fun prev =>
            match prev with
            | Some p => Some {| targetTree := targetTree p; options := options p;
                                autumnImageUrl := autumnImageUrl p;
                                springImageUrl := Some springImg |}
            | None => None
            end) ;;
          setStatus RESULT
        ) catch (fun _ => setStatus RESULT)
      else
        setStatus RESULT
  end.

(** [handleRegenerateFact] up to its [await]: the guard and the flag.
    It answers whether a request was sent, and for which names. *)
Definition handleRegenerateFact_request : M (option (string * string)) :=
  s <- get ;;
  match currentRound s with
  | None => ret None
  | Some round =>
      if isFactLoading s then ret None
      else
        setIsFactLoading true ;;
        ret (Some (commonName (targetTree round), scientificName (targetTree round)))
  end.

(** [handleRegenerateFact] from its [await] on, once the request for
    [names] settles. *)
Definition handleRegenerateFact_settle (w : World) (names : string * string) : M unit :=
  try_finally
    (try (
       newFact <- fetchNewFunFact w (fst names) (snd names) ;;
       setCurrentRound (fun prev =>
         match prev with
         | None => None
         | Some p =>
             Some {| targetTree :=
                       {| id := id (targetTree p);
                          commonName := commonName (targetTree p);
                          scientificName := scientificName (targetTree p);
                          autumnDescription := autumnDescription (targetTree p);
                          springDescription := springDescription (targetTree p);
                          habitats := habitats (targetTree p);
                          funFact := newFact |};
                     options := options p;
                     autumnImageUrl := autumnImageUrl p;
                     springImageUrl := springImageUrl p |}
         end)
     ) catch (fun _ => ret tt))
    (setIsFactLoading false).

(** [pool.findIndex(t => t.id === currentRound?.targetTree.id) + 1]; with
    no current round the comparison is against [undefined] and never holds. *)
Definition nextIdx (s : State) : Z :=
  (findIndex (fun t => match currentRound s with
                       | Some round => String.eqb (id t) (id (targetTree round))
                       | None => false
                       end) (pool s) + 1)%Z.

Definition nextRound (w : World) : M unit :=
  s <- get ;;
  if (nextIdx s <? Z.of_nat (List.length (pool s)))%Z then
    startRound w (at_index (pool s) (nextIdx s)) (pool s)
  else
    match difficulty s with
    | Some d => initGame w d
    | None => ret tt
    end.

(** The [onClick] of the header logo and of the "Return to Trailhead"
    button. *)
Definition returnToDifficultySelection : M unit :=
  setStatus DIFFICULTY_SELECTION.

(** The image the [img] element shows for a round. *)
Definition displayedImage (s : State) (round : GameRound) : string :=
  match isCorrect s with
  | Some true => or_else (springImageUrl round) (autumnImageUrl round)
  | _ => autumnImageUrl round
  end.

(* ================================================================== *)
(** ** App.tsx: what the rendered tree lets the player do

    The component renders one of three screens.  In [DIFFICULTY_SELECTION]
    only the three trail buttons exist; in [LOADING] there is no control at
    all; otherwise the header and the footer carry the return control, and
    under [currentRound &&] the option buttons exist in [GUESSING]
    ([disabled] once [selectedOption !== null]) and the "next" and "new
    fact" buttons in [RESULT].

    Since the [LOADING] screen has no control, no click can fall between
    the two halves of [initGame], [startRound] or [handleGuess]: a click
    handler runs to its end as one step.  Only the fun-fact request stays
    open while the player goes on, so its settling is a step of its own. *)

Inductive Event :=
| selectDifficulty (d : Difficulty)
| selectOption (choice : string)
| advance
| regenerateFact
| factSettles (names : string * string)
| returnToSelection.

Definition returnControlRendered (s : State) : bool :=
  negb (GameStatus_eqb (status s) DIFFICULTY_SELECTION)
  && negb (GameStatus_eqb (status s) LOADING).

Definition mainScreen (s : State) : option GameRound :=
  if returnControlRendered s then currentRound s else None.

(** The option button labelled [choice] exists and is not disabled. *)
Definition optionEnabled (s : State) (choice : string) : bool :=
  match mainScreen s with
  | Some round =>
      GameStatus_eqb (status s) GUESSING
      && existsb (String.eqb choice) (options round)
      && match selectedOption s with None => true | Some _ => false end
  | None => false
  end.

Definition nextRendered (s : State) : bool :=
  match mainScreen s with
  | Some _ => GameStatus_eqb (status s) RESULT
  | None => false
  end.

Definition newFactEnabled (s : State) : bool :=
  match mainScreen s with
  | Some _ =>
      GameStatus_eqb (status s) RESULT
      && match isCorrect s with Some true => true | _ => false end
      && negb (isFactLoading s)
  | None => false
  end.

(** The handler an event runs, when its control is there to be clicked. *)
Definition dispatch (w : World) (ev : Event) : M unit :=
  fun s =>
  match ev with
  | selectDifficulty d =>
      if GameStatus_eqb (status s) DIFFICULTY_SELECTION then initGame w d s
      else Returned tt s
  | selectOption choice =>
      if optionEnabled s choice then handleGuess w choice s else Returned tt s
  | advance =>
      if nextRendered s then nextRound w s else Returned tt s
  | regenerateFact =>
      if newFactEnabled s then (handleRegenerateFact_request ;; ret tt) s
      else Returned tt s
  | factSettles names =>
      if isFactLoading s then handleRegenerateFact_settle w names s
      else Returned tt s
  | returnToSelection =>
      if returnControlRendered s then returnToDifficultySelection s
      else Returned tt s
  end.

Definition step (s : State) (we : World * Event) : State :=
  finalState (dispatch (fst we) (snd we) s).

Definition run (s : State) (trace : list (World * Event)) : State :=
  fold_left step trace s.

(* ================================================================== *)
(** ** components/Globe.tsx

    The numbers of the globe are read as real numbers: [+], [*], [sin] and
    the like are the exact operations, not their rounded double-precision
    counterparts.  What is proved of the globe is what does not hang on the
    last bit of a number: the order and the shape of what is drawn, the
    rotation counter, the ranges of the pulse.  A strict comparison of two
    computed numbers, such as the marker test [distance < Math.PI / 2], is
    decided here as exact arithmetic decides it; for a point within rounding
    of the rim of the visible hemisphere the component may decide
    otherwise. *)

Module Globe.

Local Open Scope R_scope.

(** *** What the component uses of JavaScript's [Math] and of d3-geo

    d3-geo is a dependency of the repository, not part of it.  The
    operations the component calls ([geoOrthographic], [scale],
    [translate], [clipAngle], [rotate], applying the projection to a point,
    [geoDistance]) are written out here after the library's own
    definitions, so that the marker test of the component can be compared
    with the clipping the library applies to what it draws. *)

(** [Math.atan2(y, x)] *)
Definition atan2 (y x : R) : R :=
  if Rlt_dec 0 x then atan (y / x)
  else if Rlt_dec x 0 then
    if Rle_dec 0 y then atan (y / x) + PI else atan (y / x) - PI
  else if Rlt_dec 0 y then PI / 2
  else if Rlt_dec y 0 then - (PI / 2)
  else 0.

(** [Math.trunc]; [Math.round] is [floor(x + 0.5)]. *)
Definition trunc (x : R) : R :=
  if Rle_dec 0 x then IZR (Int_part x) else - IZR (Int_part (- x)).

Definition round (x : R) : R := IZR (Int_part (x + / 2)).

(** [x % m]: the remainder has the sign of the dividend. *)
Definition rem (x m : R) : R := x - m * trunc (x / m).

Definition radians : R := PI / 180.
Definition degrees : R := 180 / PI.
Definition tau : R := 2 * PI.

(** The state of a d3 projection that the component sets or reads. *)
Record Projection := mkProjection {
  k : R;                 (* scale *)
  x0 : R;                (* translate *)
  y0 : R;
  deltaLambda : R;       (* rotate, in radians *)
  deltaPhi : R;
  deltaGamma : R;
  theta : R              (* clip angle, in radians *)
}.

(** [d3.geoOrthographic()]: scale 249.5, translate [[480, 250]], no
    rotation, clip angle [90 + epsilon] degrees with [epsilon = 1e-6]. *)
Definition geoOrthographic : Projection :=
  {| k := 2495 / 10; x0 := 480; y0 := 250;
     deltaLambda := 0; deltaPhi := 0; deltaGamma := 0;
     theta := (90 + 1 / 1000000) * radians |}.

Definition scale (v : R) (p : Projection) : Projection :=
  {| k := v; x0 := x0 p; y0 := y0 p; deltaLambda := deltaLambda p;
     deltaPhi := deltaPhi p; deltaGamma := deltaGamma p; theta := theta p |}.

Definition translate (v : R * R) (p : Projection) : Projection :=
  {| k := k p; x0 := fst v; y0 := snd v; deltaLambda := deltaLambda p;
     deltaPhi := deltaPhi p; deltaGamma := deltaGamma p; theta := theta p |}.

Definition clipAngle (v : R) (p : Projection) : Projection :=
  {| k := k p; x0 := x0 p; y0 := y0 p; deltaLambda := deltaLambda p;
     deltaPhi := deltaPhi p; deltaGamma := deltaGamma p; theta := v * radians |}.

(** [projection.rotate([lambda, phi])]: the angles are kept modulo 360. *)
Definition rotate (v : R * R) (p : Projection) : Projection :=
  {| k := k p; x0 := x0 p; y0 := y0 p;
     deltaLambda := rem (fst v) 360 * radians;
     deltaPhi := rem (snd v) 360 * radians;
     deltaGamma := 0; theta := theta p |}.

(** [projection.rotate()] *)
Definition rotate_get (p : Projection) : R * R :=
  (deltaLambda p * degrees, deltaPhi p * degrees).

(** The rotation of the sphere, in radians: first the longitude shift,
    brought back into [[-pi, pi]], then the tilt. *)
Definition rotationLambda (dl : R) (lp : R * R) : R * R :=
  let lambda := fst lp + dl in
  (if Rlt_dec PI (Rabs lambda) then lambda - round (lambda / tau) * tau else lambda,
   snd lp).

Definition rotationPhiGamma (dp dg : R) (lp : R * R) : R * R :=
  let cosPhi := cos (snd lp) in
  let x := cos (fst lp) * cosPhi in
  let y := sin (fst lp) * cosPhi in
  let z := sin (snd lp) in
  let k := z * cos dp + x * sin dp in
  (atan2 (y * cos dg - k * sin dg) (x * cos dp - z * sin dp),
   asin (k * cos dg + y * sin dg)).

Definition rotateRadians (p : Projection) (lp : R * R) : R * R :=
  rotationPhiGamma (deltaPhi p) (deltaGamma p) (rotationLambda (deltaLambda p) lp).

(** The raw orthographic projection of rotated coordinates. *)
Definition orthographicRaw (lp : R * R) : R * R :=
  (cos (snd lp) * sin (fst lp), sin (snd lp)).

(** The small-circle clip of the library: a rotated point is kept when
    [cos(lambda) * cos(phi) > cos(theta)]. *)
Definition clipVisible (p : Projection) (lp : R * R) : bool :=
  if Rlt_dec (cos (theta p)) (cos (fst lp) * cos (snd lp)) then true else false.

(** A point given in degrees lies inside the clip circle of the projection,
    that is, on the part of the sphere the library draws. *)
Definition insideClip (p : Projection) (point : R * R) : bool :=
  clipVisible p (rotateRadians p (fst point * radians, snd point * radians)).

(** [projection(point)]: rotate, project, scale and translate.  The
    library's [projection(point)] does not clip; for the orthographic
    projection it answers an array for every point. *)
Definition project (p : Projection) (point : R * R) : option (R * R) :=
  let xy := orthographicRaw (rotateRadians p (fst point * radians, snd point * radians)) in
  Some (x0 p + k p * fst xy, y0 p - k p * snd xy).

(** [d3.geoDistance(a, b)]: the length, in radians, of the great arc from
    [a] to [b], both in degrees. *)
Definition geoDistance (a b : R * R) : R :=
  let lambda0 := fst a * radians in
  let phi0 := snd a * radians in
  let lambda := fst b * radians in
  let phi := snd b * radians in
  let delta := Rabs (lambda - lambda0) in
  let x := cos phi * sin delta in
  let y := cos phi0 * sin phi - sin phi0 * cos phi * cos delta in
  let z := sin phi0 * sin phi + cos phi0 * cos phi * cos delta in
  atan2 (sqrt (x * x + y * y)) z.

(** *** The component *)

(** What [render] puts on the canvas. *)
Inductive Primitive :=
| clearRect
| fillArc (x y r : R) (fillStyle : string)
| strokeArc (x y r : R) (alpha : R)
| graticulePath (p : Projection)
| landPath (p : Projection).

(** [canvas.width] and [canvas.height], from the [canvas] element. *)
Definition width : R := 280.
Definition height : R := 280.

(** [d3.geoOrthographic().scale(width / 2.2).translate([width / 2, height / 2]).clipAngle(90)] *)
Definition projection0 : Projection :=
  clipAngle 90 (translate (width / 2, height / 2) (scale (width / (22 / 10)) geoOrthographic)).

(** [(Math.sin(t / 300) + 1) / 2], as a function of the time [t] in
    milliseconds. *)
Definition pulseWave (t : R) : R := (sin (t / 300) + 1) / 2.

(** The [pulse] a marker computes when [Date.now()] reads [now]. *)
Definition pulseAt (now : Z) : R := pulseWave (IZR now).

(** The coordinate [-projection.rotate()[0], -projection.rotate()[1]]. *)
Definition subRotationPoint (p : Projection) : R * R :=
  (- fst (rotate_get p), - snd (rotate_get p)).

(** The body of [locations.forEach]: what is drawn for one location when
    [Date.now()] reads [now].  The test [distance < Math.PI / 2] is the
    comparison of the exact distance with the exact [PI / 2]; the component
    compares their double-precision values. *)
Definition marker (p : Projection) (now : Z) (loc : GeoLocation) : list Primitive :=
  match project p (Q2R (lng loc), Q2R (lat loc)) with
  | Some coords =>
      let geoPoint := (Q2R (lng loc), Q2R (lat loc)) in
      let distance := geoDistance geoPoint (subRotationPoint p) in
      if Rlt_dec distance (PI / 2) then
        let pulse := pulseAt now in
        [ fillArc (fst coords) (snd coords) 4 "#a3b18a";
          strokeArc (fst coords) (snd coords) (4 + pulse * 15) (4 / 10 * (1 - pulse)) ]
      else []
  | None => []
  end.

(** A marker is drawn for the location. *)
Definition markerDrawn (p : Projection) (now : Z) (loc : GeoLocation) : Prop :=
  marker p now loc <> [].

(** [locations.forEach(...)]; [clock i] is what [Date.now()] reads while
    the [i]-th location is handled. *)
Fixpoint markers_from (p : Projection) (clock : nat -> Z)
  (locations : list GeoLocation) (i : nat) : list Primitive :=
  match locations with
  | [] => []
  | loc :: rest => marker p (clock i) loc ++ markers_from p clock rest (S i)
  end.

(** The variables of the effect ([rotation], [animationFrameId], the
    projection), the canvas, and the browser's list of animation frame
    callbacks, of which only those that call this [render] matter. *)
Record Session := mkSession {
  rotation : R;
  animationFrameId : option nat;
  projection : Projection;
  canvas : list Primitive;
  frameCallbacks : list nat;
  nextHandle : nat
}.

(** The effect before its first [render()]; handles start at 1. *)
Definition session0 : Session :=
  {| rotation := 0; animationFrameId := None; projection := projection0;
     canvas := []; frameCallbacks := []; nextHandle := 1 |}.

Definition render (locations : list GeoLocation) (clock : nat -> Z) (s : Session)
  : Session :=
  let rotation' := rotation s + 25 / 100 in
  let projection' := rotate (rotation', - 15) (projection s) in
  {| rotation := rotation';
     animationFrameId := Some (nextHandle s);
     projection := projection';
     canvas :=
       [ clearRect;
         fillArc (width / 2) (height / 2) (width / (22 / 10)) "#020617";
         graticulePath projection';
         landPath projection' ]
       ++ markers_from projection' clock locations 0;
     frameCallbacks := frameCallbacks s ++ [nextHandle s];
     nextHandle := S (nextHandle s) |}.

(** The effect body: [render()] once. *)
Definition start (locations : list GeoLocation) (clock : nat -> Z) : Session :=
  render locations clock session0.

(** One display refresh: the browser takes the callbacks that are pending,
    empties the list and runs them. *)
Definition frame (locations : list GeoLocation) (clock : nat -> Z) (s : Session)
  : Session :=
  fold_left (fun s' _ => render locations clock s') (frameCallbacks s)
    {| rotation := rotation s; animationFrameId := animationFrameId s;
       projection := projection s; canvas := canvas s;
       frameCallbacks := []; nextHandle := nextHandle s |}.

(** Successive refreshes, one clock per refresh. *)
Definition frames (locations : list GeoLocation) (clocks : list (nat -> Z))
  (s : Session) : Session :=
  fold_left (fun s' clock => frame locations clock s') clocks s.

(** The cleanup of the effect: [cancelAnimationFrame(animationFrameId)]. *)
Definition stop (s : Session) : Session :=
  {| rotation := rotation s; animationFrameId := animationFrameId s;
     projection := projection s; canvas := canvas s;
     frameCallbacks :=
       match animationFrameId s with
       | Some h => filter (fun h' => negb (Nat.eqb h' h)) (frameCallbacks s)
       | None => frameCallbacks s
       end;
     nextHandle := nextHandle s |}.

(** *** Vocabulary of the statements *)

(** The cosine of the angle between the directions of two points given in
    degrees. *)
Definition cosAngle (a b : R * R) : R :=
  sin (snd a * radians) * sin (snd b * radians)
  + cos (snd a * radians) * cos (snd b * radians)
    * cos ((fst b - fst a) * radians).

(** The great-circle distance, in radians, between two points given in
    degrees. *)
Definition greatCircle (a b : R * R) : R := acos (cosAngle a b).

(** The loop is running: exactly one callback is pending, the one
    [animationFrameId] names; the counter is not negative and the projection
    is turned by it. *)
Definition running (s : Session) : Prop :=
  (exists h, frameCallbacks s = [h] /\ animationFrameId s = Some h) /\
  0 <= rotation s /\
  projection s = rotate (rotation s, - 15) projection0.

(** [p] is a period of [f]. *)
Definition isPeriod (f : R -> R) (p : R) : Prop :=
  0 < p /\ forall t, f (t + p) = f t.

End Globe.

(* ================================================================== *)
(** ** Vocabulary of the statements *)

(** The outcome of [generateTreeImage] is decided by the world alone:
    the image it returns, or [None] when it throws. *)
Definition imageOf (w : World) (description : string) (season : Season)
  : option string :=
  match generateTreeImage w description season initialState with
  | Returned img _ => Some img
  | Thrown _ _ => None
  end.

(** A string without the character [-]. *)
Fixpoint noDash (s : string) : Prop :=
  match s with
  | EmptyString => True
  | String c r => c <> "-"%char /\ noDash r
  end.

(** What the specification asks of the option list of a round. *)
Definition optionsAsSpecified (target : TreeData) (currentPool : list TreeData)
  (labels : list string) : Prop :=
  List.length labels = min (List.length currentPool) 3 /\
  NoDup labels /\
  count_occ string_dec labels (commonName target) = 1.

(** ** Concrete inputs, used to run the model *)

Definition specimen (name : string) : TreeJson :=
  {| j_commonName := name; j_scientificName := name ++ " sp.";
     j_autumnDescription := name ++ " in autumn";
     j_springDescription := name ++ " in spring";
     j_habitats := [ {| lat := 48 # 1; lng := 2 # 1; label := None |} ];
     j_funFact := "A tree." |}%string.

(** A world whose provider answers [data] to the tree-list request and
    [images season] to an image request, whose clock stands still and
    whose sort leaves the array in the order it found it. *)
Definition stillWorld (data : option (list TreeJson))
  (images : Season -> option (list Part)) : World :=
  {| treeListResponse := fun _ => data;
     imageResponse := fun _ season => images season;
     funFactResponse := fun _ _ => None;
     Date_now := fun _ => 1700000000000%N;
     randomSortTrees := fun l => l;
     randomSortLabels := fun l => l |}.

Definition onePng : option (list Part) := Some [ {| inlineData := Some "iVBOR" |} ].

(** Every image request is answered. *)
Definition bothImages (season : Season) : option (list Part) := onePng.

(** The "before" image is answered, the "after" image request rejects. *)
Definition autumnOnly (season : Season) : option (list Part) :=
  match season with autumn => onePng | spring => None end.

(** No image request is answered. *)
Definition noImage (season : Season) : option (list Part) := None.

Definition threeTrees : list TreeJson :=
  [specimen "Sugar Maple"; specimen "English Oak"; specimen "Silver Birch"].

(** Two specimens the provider gave the same common name. *)
Definition twinTrees : list TreeJson :=
  [specimen "English Oak"; specimen "English Oak"].

Definition threeWorld : World := stillWorld (Some threeTrees) bothImages.
Definition twinWorld : World := stillWorld (Some twinTrees) bothImages.

Definition treeAt (w : World) (data : list TreeJson) (index : nat) : TreeData :=
  nth index (assignIds w data) (withId (specimen EmptyString) EmptyString).

(** The reset the specification asks of a return to the trailhead. *)
Definition sessionCleared (s : State) : Prop :=
  score s = 0 /\ pool s = [] /\ currentRound s = None.

(** Two states that differ in [status] at most. *)
Definition onlyStatusDiffers (s s' : State) : Prop :=
  difficulty s' = difficulty s /\ currentRound s' = currentRound s /\
  pool s' = pool s /\ score s' = score s /\
  selectedOption s' = selectedOption s /\ isCorrect s' = isCorrect s /\
  loadingStep s' = loadingStep s /\ isFactLoading s' = isFactLoading s.

(** The choice is the common name of the current target. *)
Definition isCorrectChoice (s : State) (choice : string) : bool :=
  match currentRound s with
  | Some round => String.eqb choice (commonName (targetTree round))
  | None => false
  end.

(** The event is a guess the interface accepts, and it is right. *)
Definition acceptedCorrectGuess (s : State) (ev : Event) : bool :=
  match ev with
  | selectOption choice => optionEnabled s choice && isCorrectChoice s choice
  | _ => false
  end.

(** The event is a guess the interface accepts. *)
Definition acceptedGuess (s : State) (ev : Event) : bool :=
  match ev with
  | selectOption choice => optionEnabled s choice
  | _ => false
  end.

(** The number of accepted guesses, and of accepted correct guesses, along
    a trace starting in [s]. *)
Fixpoint guessesIn (s : State) (trace : list (World * Event)) : nat :=
  match trace with
  | [] => 0
  | we :: rest =>
      (if acceptedGuess s (snd we) then 1 else 0) + guessesIn (step s we) rest
  end.

Fixpoint correctGuessesIn (s : State) (trace : list (World * Event)) : nat :=
  match trace with
  | [] => 0
  | we :: rest =>
      (if acceptedCorrectGuess s (snd we) then 1 else 0)
      + correctGuessesIn (step s we) rest
  end.

(** The event cannot start a new round: it is neither the choice of a
    trail nor an advance. *)
Definition staysInRound (we : World * Event) : bool :=
  match snd we with
  | selectDifficulty _ | advance => false
  | _ => true
  end.

(** A session of one accepted correct guess on the pool of three. *)
Definition oneCorrectGuess : list (World * Event) :=
  [ (threeWorld, selectDifficulty EASY);
    (threeWorld, selectOption "Sugar Maple") ].

(** A session of three rounds on the pool of three, each guessed right. *)
Definition threeCorrectGuesses : list (World * Event) :=
  [ (threeWorld, selectDifficulty EASY);
    (threeWorld, selectOption "Sugar Maple");
    (threeWorld, advance);
    (threeWorld, selectOption "English Oak");
    (threeWorld, advance);
    (threeWorld, selectOption "Silver Birch") ].

(** The world of [threeWorld], except that the "after" image never comes. *)
Definition noSpringWorld : World := stillWorld (Some threeTrees) autumnOnly.

(** The world of [threeWorld], except that no image ever comes. *)
Definition noImageWorld : World := stillWorld (Some threeTrees) noImage.

(** The round [threeWorld] starts a trail with. *)
Definition firstRound : GameRound :=
  {| targetTree := treeAt threeWorld threeTrees 0;
     options := ["Sugar Maple"; "English Oak"; "Silver Birch"];
     autumnImageUrl := "data:image/png;base64,iVBOR";
     springImageUrl := None |}.

Definition firstRoundOpen : State :=
  run initialState [(threeWorld, selectDifficulty EASY)].

(** ** States the handlers end in *)

(** [startRound] succeeded for target [t] with "before" image [img]. *)
Definition roundStarted (w : World) (t : TreeData) (currentPool : list TreeData)
  (img : string) (s : State) : State :=
  {| status := GUESSING; difficulty := difficulty s;
     currentRound := Some {| targetTree := t;
                             options := optionsOf w t currentPool;
                             autumnImageUrl := img;
                             springImageUrl := None |};
     pool := pool s; score := score s;
     selectedOption := None; isCorrect := None;
     loadingStep := "Isolating seasonal markers for the next specimen...";
     isFactLoading := isFactLoading s |}.

(** [startRound] failed. *)
Definition roundFailed (s : State) : State :=
  {| status := ERROR; difficulty := difficulty s;
     currentRound := currentRound s;
     pool := pool s; score := score s;
     selectedOption := selectedOption s; isCorrect := isCorrect s;
     loadingStep := "Isolating seasonal markers for the next specimen...";
     isFactLoading := isFactLoading s |}.

(** [initGame] up to its first [await]. *)
Definition trailLoading (d : Difficulty) (s : State) : State :=
  {| status := LOADING; difficulty := Some d;
     currentRound := currentRound s; pool := pool s; score := score s;
     selectedOption := selectedOption s; isCorrect := isCorrect s;
     loadingStep := ("Stepping onto the " ++ toLowerCase (Difficulty_value d)
                     ++ " trail...")%string;
     isFactLoading := isFactLoading s |}.

Definition withPool (trees : list TreeData) (s : State) : State :=
  {| status := status s; difficulty := difficulty s;
     currentRound := currentRound s; pool := trees; score := score s;
     selectedOption := selectedOption s; isCorrect := isCorrect s;
     loadingStep := loadingStep s; isFactLoading := isFactLoading s |}.

Definition withStatus (v : GameStatus) (s : State) : State :=
  {| status := v; difficulty := difficulty s;
     currentRound := currentRound s; pool := pool s; score := score s;
     selectedOption := selectedOption s; isCorrect := isCorrect s;
     loadingStep := loadingStep s; isFactLoading := isFactLoading s |}.


(** ** The invariant of the session

    What holds of every state the player can reach: the identifiers of the
    pool are pairwise distinct, and while a round is being guessed or shown
    its target is a specimen of the pool and a difficulty is set. *)
Definition inPlay (s : State) : Prop :=
  status s = GUESSING \/ status s = RESULT.

Definition wellFormed (s : State) : Prop :=
  NoDup (map id (pool s)) /\
  (inPlay s ->
   exists round d,
     currentRound s = Some round /\ difficulty s = Some d /\
     In (id (targetTree round)) (map id (pool s))).

(* ================================================================== *)
(** ** Further vocabulary *)

(** The part carries no image. *)
Definition noInline (p : Part) : bool :=
  match inlineData p with Some _ => false | None => true end.

(** The statuses a handler can end in. *)
Definition settled (s : State) : Prop :=
  status s = DIFFICULTY_SELECTION \/ status s = GUESSING \/
  status s = RESULT \/ status s = ERROR.

(** The sort of every world of the trace rearranges. *)
Definition sortsPermute (trace : list (World * Event)) : Prop :=
  Forall (fun we => sortPermutes (fst we)) trace.

(** While a round is open: nothing is recorded yet and the "after" image
    is not there. *)
Definition roundOpen (s : State) : Prop :=
  selectedOption s = None /\ isCorrect s = None /\
  exists round, currentRound s = Some round /\ springImageUrl round = None.

(** Once a round is decided: the recorded verdict is that of the recorded
    choice, and an "after" image is there only after a right guess. *)
Definition roundDecided (s : State) : Prop :=
  exists round choice,
    currentRound s = Some round /\
    selectedOption s = Some choice /\
    isCorrect s = Some (String.eqb choice (commonName (targetTree round))) /\
    (springImageUrl round <> None -> isCorrect s = Some true).

(** The labels of the round are common names of the pool, the target's
    among them, and there are [min n 3] of them. *)
Definition labelsFromPool (s : State) : Prop :=
  exists round,
    currentRound s = Some round /\
    In (commonName (targetTree round)) (options round) /\
    (forall o, In o (options round) ->
               exists t, In t (pool s) /\ commonName t = o) /\
    List.length (options round) = min (List.length (pool s)) 3.

(** The round, with another fun fact. *)
Definition withFunFact (fact : string) (p : GameRound) : GameRound :=
  {| targetTree :=
       {| id := id (targetTree p);
          commonName := commonName (targetTree p);
          scientificName := scientificName (targetTree p);
          autumnDescription := autumnDescription (targetTree p);
          springDescription := springDescription (targetTree p);
          habitats := habitats (targetTree p);
          funFact := fact |};
     options := options p;
     autumnImageUrl := autumnImageUrl p;
     springImageUrl := springImageUrl p |}.

(** A world whose provider rejects the tree-list request. *)
Definition rejectingWorld : World := stillWorld None bothImages.

(** A world whose provider answers the tree-list request with no tree. *)
Definition emptyWorld : World := stillWorld (Some []) bothImages.

(** The text whose UTF-8 bytes are the given ones. *)
Definition utf8 (bytes : list nat) : string :=
  fold_right (fun n s => String (ascii_of_nat n) s) EmptyString bytes.

(** The white space and the line terminators of ECMAScript, code point by
    code point, in UTF-8: U+0009 to U+000D, U+0020, U+00A0, U+1680, U+2000
    to U+200A, U+2028, U+2029, U+202F, U+205F, U+3000, U+FEFF. *)
Definition whiteSpaceCodePoints : list string :=
  map utf8
    [ [9]; [10]; [11]; [12]; [13]; [32]; [194; 160]; [225; 154; 128];
      [226; 128; 128]; [226; 128; 129]; [226; 128; 130]; [226; 128; 131];
      [226; 128; 132]; [226; 128; 133]; [226; 128; 134]; [226; 128; 135];
      [226; 128; 136]; [226; 128; 137]; [226; 128; 138];
      [226; 128; 168]; [226; 128; 169]; [226; 128; 175]; [226; 129; 159];
      [227; 128; 128]; [239; 187; 191] ].

(** Code points [trim] has to keep, in UTF-8: the letter A, the next-line
    control U+0085, the zero-width space U+200B and the Mongolian vowel
    separator U+180E, none of them white space to ECMAScript. *)
Definition otherCodePoints : list string :=
  map utf8 [ [65]; [194; 133]; [226; 128; 139]; [225; 160; 142] ].

(** A fun fact as a provider may send it: a byte order mark (U+FEFF) and a
    space before the sentence, a no-break space (U+00A0), a line separator
    (U+2028) and a line feed after it. *)
Definition factText : string :=
  utf8 [239; 187; 191; 32] ++ "Its sap is boiled into syrup."
  ++ utf8 [194; 160; 226; 128; 168; 10].

(** The world of [threeWorld] with a fun fact to tell. *)
Definition factWorld : World :=
  {| treeListResponse := treeListResponse threeWorld;
     imageResponse := imageResponse threeWorld;
     funFactResponse := fun _ _ => Some factText;
     Date_now := Date_now threeWorld;
     randomSortTrees := randomSortTrees threeWorld;
     randomSortLabels := randomSortLabels threeWorld |}.

(** The shape of a session state between two events. *)
Definition sessionShape (s : State) : Prop :=
  settled s /\
  (status s = GUESSING -> roundOpen s) /\
  (status s = RESULT -> roundDecided s).

(** While a round is in play its labels come from the pool. *)
Definition labelsInPlay (s : State) : Prop := inPlay s -> labelsFromPool s.

(** The event is a fun-fact request the interface accepts. *)
Definition acceptedFactRequest (s : State) (ev : Event) : bool :=
  match ev with
  | regenerateFact => newFactEnabled s
  | _ => false
  end.

(** The number of accepted fun-fact requests along a trace. *)
Fixpoint factRequestsIn (s : State) (trace : list (World * Event)) : nat :=
  match trace with
  | [] => 0
  | we :: rest =>
      (if acceptedFactRequest s (snd we) then 1 else 0)
      + factRequestsIn (step s we) rest
  end.

(** The event is not the settling of a fun-fact request. *)
Definition notSettling (we : World * Event) : bool :=
  match snd we with
  | factSettles _ => false
  | _ => true
  end.

(** A session in which a fun fact is asked for during the first round and
    arrives during the second. *)
Definition lateFact : list (World * Event) :=
  [ (threeWorld, selectDifficulty EASY);
    (threeWorld, selectOption "Sugar Maple");
    (threeWorld, regenerateFact);
    (threeWorld, advance) ].

(* ================================================================== *)
(** ** The standalone build of the component

    The second module of [src/App.tsx] is the same game in one file, for
    a page without a bundler.  Its handlers carry other loading messages,
    it has no fun-fact control, its option buttons are not [disabled], it
    checks for the API key when it mounts, and it has a screen of its own
    for [ERROR], without any control.  The state is the same record; the
    cell [isFactLoading], which this build does not have, is carried along
    untouched. *)

Module Standalone.

(** [generateTreeImage] of this build: the first part with inline data,
    by [parts.find]. *)
Definition generateTreeImage (w : World) (description : string) (season : Season)
  : M string :=
  match imageResponse w description season with
  | None => throw (ProviderError "generateContent")
  | Some parts =>
      match find (fun p => match inlineData p with Some _ => true | None => false end)
                 parts with
      | Some {| inlineData := Some data |} =>
          ret ("data:image/png;base64," ++ data)%string
      | _ => throw (ProviderError "No image data")
      end
  end.

Definition startRound (w : World) (target : option TreeData)
  (currentPool : list TreeData) : M unit :=
  setStatus LOADING ;;
  setLoadingStep "Generating botanical imagery..." ;;
  try (
    t <- deref target ;;
    autumnImg <- generateTreeImage w (autumnDescription t) autumn ;;
    let options := optionsOf w t currentPool in
    setCurrentRound (fun _ => Some {| targetTree := t; options := options;
                                      autumnImageUrl := autumnImg;
                                      springImageUrl := None |}) ;;
    setSelectedOption None ;;
    setIsCorrect None ;;
    setStatus GUESSING
  ) catch (fun _ => setStatus ERROR).

Definition initGame (w : World) (selectedDifficulty : Difficulty) : M unit :=
  try (
    setDifficulty (Some selectedDifficulty) ;;
    setStatus LOADING ;;
    setLoadingStep ("Searching the "
                    ++ toLowerCase (Difficulty_value selectedDifficulty)
                    ++ " trail...")%string ;;
    trees <- fetchNewTrees w selectedDifficulty ;;
    setPool trees ;;
    startRound w (at_index trees 0) trees
  ) catch (fun _ => setStatus ERROR).

Definition handleGuess (w : World) (choice : string) : M unit :=
  s <- get ;;
  match currentRound s with
  | None => ret tt
  | Some round =>
      setSelectedOption (Some choice) ;;
      let correct := String.eqb choice (commonName (targetTree round)) in
      setIsCorrect (Some correct) ;;
      if correct then
        setScore (fun s => s + 1) ;;
        setStatus LOADING ;;
        setLoadingStep "Waiting for spring blossoms..." ;;
        try (
          springImg <- generateTreeImage w (springDescription (targetTree round)) spring ;;
          setCurrentRound (fun prev =>
            match prev with
            | Some p => Some {| targetTree := targetTree p; options := options p;
                                autumnImageUrl := autumnImageUrl p;
                                springImageUrl := Some springImg |}
            | None => None
            end) ;;
          setStatus RESULT
        ) catch (fun _ => setStatus RESULT)
      else
        setStatus RESULT
  end.

Definition nextRound (w : World) : M unit :=
  s <- get ;;
  if (nextIdx s <? Z.of_nat (List.length (pool s)))%Z then
    startRound w (at_index (pool s) (nextIdx s)) (pool s)
  else
    match difficulty s with
    | Some d => initGame w d
    | None => ret tt
    end.

(** The effect that runs once when the component mounts; [apiKey] is
    [(window as any).process?.env?.API_KEY || ''] . *)
Definition mount (apiKey : string) : M unit :=
  if String.eqb apiKey EmptyString || String.eqb apiKey "API_KEY_PLACEHOLDER"
  then setStatus ERROR
  else ret tt.

(** The screens: [ERROR] and [LOADING] have no control; the selection
    screen has the three trail buttons; the main screen has the title, which
    returns to the selection, and under [currentRound &&] the option buttons
    in [GUESSING] and the "next" button in [RESULT]. *)
Definition mainScreenRendered (s : State) : bool :=
  negb (GameStatus_eqb (status s) ERROR)
  && negb (GameStatus_eqb (status s) DIFFICULTY_SELECTION)
  && negb (GameStatus_eqb (status s) LOADING).

Definition optionRendered (s : State) (choice : string) : bool :=
  mainScreenRendered s
  && GameStatus_eqb (status s) GUESSING
  && match currentRound s with
     | Some round => existsb (String.eqb choice) (options round)
     | None => false
     end.

Definition nextRendered (s : State) : bool :=
  mainScreenRendered s
  && GameStatus_eqb (status s) RESULT
  && match currentRound s with Some _ => true | None => false end.

Definition dispatch (w : World) (ev : Event) : M unit :=
  fun s =>
  match ev with
  | selectDifficulty d =>
      if GameStatus_eqb (status s) DIFFICULTY_SELECTION then initGame w d s
      else Returned tt s
  | selectOption choice =>
      if optionRendered s choice then handleGuess w choice s else Returned tt s
  | advance =>
      if nextRendered s then nextRound w s else Returned tt s
  | returnToSelection =>
      if mainScreenRendered s then setStatus DIFFICULTY_SELECTION s
      else Returned tt s
  | regenerateFact | factSettles _ => Returned tt s
  end.

Definition step (s : State) (we : World * Event) : State :=
  finalState (dispatch (fst we) (snd we) s).

Definition run (s : State) (trace : list (World * Event)) : State :=
  fold_left step trace s.

(** The state the component is in once mounted. *)
Definition mounted (apiKey : string) : State :=
  finalState (mount apiKey initialState).

(** The event is a guess this build accepts. *)
Definition acceptedGuess (s : State) (ev : Event) : bool :=
  match ev with
  | selectOption choice => optionRendered s choice
  | _ => false
  end.

Fixpoint guessesIn (s : State) (trace : list (World * Event)) : nat :=
  match trace with
  | [] => 0
  | we :: rest =>
      (if acceptedGuess s (snd we) then 1 else 0) + guessesIn (step s we) rest
  end.

(** Two states that differ in [loadingStep] at most. *)
Definition sameButMessage (s s' : State) : Prop :=
  status s' = status s /\ difficulty s' = difficulty s /\
  currentRound s' = currentRound s /\ pool s' = pool s /\
  score s' = score s /\ selectedOption s' = selectedOption s /\
  isCorrect s' = isCorrect s /\ isFactLoading s' = isFactLoading s.

(** The state, with another loading message. *)
Definition withMessage (m : string) (s : State) : State :=
  {| status := status s; difficulty := difficulty s;
     currentRound := currentRound s; pool := pool s; score := score s;
     selectedOption := selectedOption s; isCorrect := isCorrect s;
     loadingStep := m; isFactLoading := isFactLoading s |}.

End Standalone.

(* ================================================================== *)
(** * Properties *)

(** ** Running handlers *)

Lemma generateTreeImage_state w description season s :
  match imageOf w description season with
  | Some img => generateTreeImage w description season s = Returned img s
  | None => exists e, generateTreeImage w description season s = Thrown e s
  end.
Proof.
  unfold imageOf, generateTreeImage.
  destruct (imageResponse w description season) as [parts|]; cbn.
  - destruct (find _ parts) as [[[data|]]|]; cbn; eauto.
  - eauto.
Qed.

(** ** Identifiers of a fetched pool *)

Lemma string_of_uint_noDash d : noDash (NilEmpty.string_of_uint d).
Proof. induction d; cbn; repeat split; auto; discriminate. Qed.

Lemma Number_toString_noDash n : noDash (Number_toString n).
Proof. apply string_of_uint_noDash. Qed.

Lemma Number_toString_inj n m : Number_toString n = Number_toString m -> n = m.
Proof.
  unfold Number_toString; intros H.
  apply DecimalN.Unsigned.to_uint_inj.
  assert (E : Some (N.to_uint n) = Some (N.to_uint m))
    by (rewrite <- !NilEmpty.usu, H; reflexivity).
  now injection E.
Qed.

(** Splitting at the first dash is unambiguous. *)
Lemma split_at_dash a b x y :
  noDash a -> noDash b ->
  (a ++ String "-" x)%string = (b ++ String "-" y)%string -> a = b /\ x = y.
Proof.
  revert b; induction a as [|c a IH]; intros [|d b]; cbn; intros Ha Hb E.
  - injection E; auto.
  - injection E as E1 E2; subst d; destruct Hb as [Hb _]; now elim Hb.
  - injection E as E1 E2; subst c; destruct Ha as [Ha _]; now elim Ha.
  - injection E as E1 E2; subst d.
    destruct Ha as [_ Ha], Hb as [_ Hb].
    destruct (IH b Ha Hb E2) as [-> ->]; auto.
Qed.

Lemma treeId_index now now' i j : treeId now i = treeId now' j -> i = j.
Proof.
  unfold treeId; cbn [String.append]; intros E.
  injection E as E.
  apply split_at_dash in E; try apply Number_toString_noDash.
  destruct E as [_ E].
  apply Number_toString_inj in E.
  now apply Nat2N.inj.
Qed.

Lemma assignIds_from_index w data k x :
  In x (map id (mapi_from (fun t index => withId t (treeId (Date_now w index) index)) data k)) ->
  exists j, k <= j /\ x = treeId (Date_now w j) j.
Proof.
  revert k; induction data as [|t data IH]; cbn; intros k H.
  - contradiction.
  - destruct H as [<-|H].
    + exists k; split; [lia|reflexivity].
    + destruct (IH _ H) as (j & Hj & ->); exists j; split; [lia|reflexivity].
Qed.

(** [fetchNewTrees] gives every specimen of a pool an [id] of its own. *)
Lemma assignIds_NoDup w data : NoDup (map id (assignIds w data)).
Proof.
  unfold assignIds, mapi; generalize 0.
  induction data as [|t data IH]; cbn; intros k; constructor; auto.
  intros H; apply assignIds_from_index in H.
  destruct H as (j & Hj & E); apply treeId_index in E; lia.
Qed.

Lemma assignIds_length w data : List.length (assignIds w data) = List.length data.
Proof.
  unfold assignIds, mapi; generalize 0.
  induction data; cbn; intros; auto.
Qed.

(** ** The option list of a round *)

Lemma NoDup_map_eq {A B} (f : A -> B) l x y :
  NoDup (map f l) -> In x l -> In y l -> f x = f y -> x = y.
Proof.
  induction l as [|a l IH]; cbn; intros ND Hx Hy E; [contradiction|].
  inversion ND as [|? ? Hn ND']; subst.
  destruct Hx as [->|Hx], Hy as [->|Hy]; auto.
  - elim Hn; rewrite E; now apply in_map.
  - elim Hn; rewrite <- E; now apply in_map.
Qed.

Lemma filter_all {A} (p : A -> bool) l :
  (forall x, In x l -> p x = true) -> filter p l = l.
Proof.
  induction l as [|a l IH]; cbn; intros H; auto.
  rewrite (H a) by auto; f_equal; auto.
Qed.

(** Filtering on [t.id !== target.id] removes the target and nothing else. *)
Lemma filter_other_ids_length currentPool target :
  NoDup (map id currentPool) -> In target currentPool ->
  List.length (filter (fun t => negb (String.eqb (id t) (id target))) currentPool)
  = pred (List.length currentPool).
Proof.
  induction currentPool as [|x r IH]; cbn; intros ND Hin; [contradiction|].
  inversion ND as [|? ? Hn ND']; subst.
  destruct (String.eqb_spec (id x) (id target)) as [E|E]; cbn.
  - rewrite filter_all; auto.
    intros y Hy; destruct (String.eqb_spec (id y) (id target)) as [E'|]; auto.
    elim Hn; rewrite E, <- E'; now apply in_map.
  - destruct Hin as [->|Hin]; [now elim E|].
    rewrite IH by auto. destruct r; [contradiction|reflexivity].
Qed.

Lemma filter_other_ids_names currentPool target x :
  NoDup (map commonName currentPool) -> In target currentPool ->
  In x (filter (fun t => negb (String.eqb (id t) (id target))) currentPool) ->
  commonName x <> commonName target.
Proof.
  intros ND Ht Hx E; apply filter_In in Hx; destruct Hx as [Hx Hne].
  assert (x = target) by (eapply NoDup_map_eq; eauto); subst x.
  rewrite String.eqb_refl in Hne; discriminate.
Qed.

Lemma In_firstn {A} n (l : list A) x : In x (firstn n l) -> In x l.
Proof.
  revert l; induction n as [|n IH]; intros [|a l]; cbn; try tauto.
  intros [->|H]; auto.
Qed.

Lemma NoDup_firstn_of {A} n (l : list A) : NoDup l -> NoDup (firstn n l).
Proof.
  revert l; induction n as [|n IH]; intros [|a l]; cbn; intros ND;
    try constructor.
  - inversion ND; subst; intros H; apply In_firstn in H; contradiction.
  - inversion ND; subst; auto.
Qed.

Section OptionList.

(** The world in which the round starts; its sort rearranges. *)
Variable w : World.
Hypothesis sorting : sortPermutes w.

Let sortsTrees := proj1 sorting.
Let sortsLabels := proj2 sorting.

Lemma optionsOf_length target currentPool :
  NoDup (map id currentPool) -> In target currentPool ->
  List.length (optionsOf w target currentPool) = min (List.length currentPool) 3.
Proof.
  intros ND Hin; unfold optionsOf, distractorsOf, slice0.
  rewrite (Permutation_length (sortsLabels _)); cbn [List.length].
  rewrite length_map, length_firstn, (Permutation_length (sortsTrees _)).
  rewrite filter_other_ids_length by assumption.
  destruct currentPool; [contradiction|cbn [List.length]; lia].
Qed.

Lemma optionsOf_target target currentPool :
  In (commonName target) (optionsOf w target currentPool).
Proof.
  unfold optionsOf.
  eapply Permutation_in; [symmetry; apply sortsLabels|]; now left.
Qed.

Lemma optionsOf_NoDup target currentPool :
  NoDup (map commonName currentPool) -> In target currentPool ->
  NoDup (optionsOf w target currentPool).
Proof.
  intros ND Hin; unfold optionsOf, distractorsOf, slice0.
  eapply Permutation_NoDup; [symmetry; apply sortsLabels|].
  set (others := filter _ currentPool).
  assert (NDo : NoDup (map commonName (randomSortTrees w others))).
  { eapply Permutation_NoDup;
      [apply Permutation_map; symmetry; apply sortsTrees|].
    clear - ND. subst others.
    induction currentPool as [|x r IH]; cbn; [constructor|].
    inversion ND as [|? ? Hn ND']; subst.
    destruct (negb _); cbn; auto.
    constructor; auto.
    intros H; apply Hn. apply in_map_iff in H; destruct H as (y & <- & Hy).
    apply in_map; apply filter_In in Hy; tauto. }
  constructor.
  - intros H; apply in_map_iff in H; destruct H as (y & E & Hy).
    apply In_firstn in Hy.
    eapply Permutation_in in Hy; [|apply sortsTrees].
    exact (filter_other_ids_names currentPool target y ND Hin Hy E).
  - rewrite <- firstn_map; now apply NoDup_firstn_of.
Qed.

End OptionList.

Lemma stillWorld_sortPermutes data images : sortPermutes (stillWorld data images).
Proof. split; intros l; apply Permutation_refl. Qed.

(** [startRound] when the "before" image arrives. *)
Lemma startRound_success w t currentPool s img :
  imageOf w (autumnDescription t) autumn = Some img ->
  startRound w (Some t) currentPool s =
  Returned tt
    {| status := GUESSING; difficulty := difficulty s;
       currentRound := Some {| targetTree := t;
                               options := optionsOf w t currentPool;
                               autumnImageUrl := img;
                               springImageUrl := None |};
       pool := pool s; score := score s;
       selectedOption := None; isCorrect := None;
       loadingStep := "Isolating seasonal markers for the next specimen...";
       isFactLoading := isFactLoading s |}.
Proof.
  intros Himg.
  unfold startRound, bind, try_catch, deref, ret; cbn.
  match goal with |- context [generateTreeImage w ?d ?x ?s0] =>
    pose proof (generateTreeImage_state w d x s0) as G end.
  rewrite Himg in G; rewrite G; reflexivity.
Qed.

(** [startRound] when there is no target or its "before" image does not
    arrive. *)
Lemma startRound_failure w target currentPool s :
  match target with
  | None => True
  | Some t => imageOf w (autumnDescription t) autumn = None
  end ->
  startRound w target currentPool s =
  Returned tt
    {| status := ERROR; difficulty := difficulty s;
       currentRound := currentRound s;
       pool := pool s; score := score s;
       selectedOption := selectedOption s; isCorrect := isCorrect s;
       loadingStep := "Isolating seasonal markers for the next specimen...";
       isFactLoading := isFactLoading s |}.
Proof.
  intros H.
  unfold startRound, bind, try_catch, deref, ret, throw; cbn.
  destruct target as [t|]; cbn; [|reflexivity].
  match goal with |- context [generateTreeImage w ?d ?x ?s0] =>
    pose proof (generateTreeImage_state w d x s0) as G end.
  rewrite H in G; destruct G as [e G]; rewrite G; reflexivity.
Qed.

(** C1, as the code has it.  For every fetched pool of [n] specimens
    (fetched in a world [w0]) and every target drawn from it, the round that
    starts (in a world [w]) once the "before" image has arrived carries an
    option list of exactly [min n 3] labels that contains the target's
    common name; when the common names of the pool are pairwise distinct,
    the labels are pairwise distinct and exactly one of them is the target's
    common name. *)
Theorem startRound_options w0 w data target s img :
  sortPermutes w ->
  In target (assignIds w0 data) ->
  imageOf w (autumnDescription target) autumn = Some img ->
  exists s' round,
    startRound w (Some target) (assignIds w0 data) s = Returned tt s' /\
    status s' = GUESSING /\
    currentRound s' = Some round /\
    targetTree round = target /\
    List.length (options round) = min (List.length data) 3 /\
    In (commonName target) (options round) /\
    (NoDup (map commonName (assignIds w0 data)) ->
     optionsAsSpecified target (assignIds w0 data) (options round)).
Proof.
  intros Hw Hin Himg.
  eexists; eexists; split; [apply (startRound_success _ _ _ _ _ Himg)|].
  cbn [status currentRound targetTree options].
  assert (L : List.length (optionsOf w target (assignIds w0 data))
              = min (List.length (assignIds w0 data)) 3)
    by (apply optionsOf_length; auto using assignIds_NoDup).
  split; [reflexivity|]. split; [reflexivity|]. split; [reflexivity|].
  cbn [options].
  split; [now rewrite L, assignIds_length|].
  split; [now apply optionsOf_target|].
  intros NDn; split; [exact L|]. split.
  - now apply optionsOf_NoDup.
  - apply NoDup_count_occ'; [now apply optionsOf_NoDup|now apply optionsOf_target].
Qed.

Lemma startRound_options_witness :
  exists s' round,
    startRound threeWorld (Some (treeAt threeWorld threeTrees 1))
      (assignIds threeWorld threeTrees) initialState = Returned tt s' /\
    status s' = GUESSING /\
    currentRound s' = Some round /\
    targetTree round = treeAt threeWorld threeTrees 1 /\
    List.length (options round) = min (List.length threeTrees) 3 /\
    In (commonName (treeAt threeWorld threeTrees 1)) (options round) /\
    (NoDup (map commonName (assignIds threeWorld threeTrees)) ->
     optionsAsSpecified (treeAt threeWorld threeTrees 1)
       (assignIds threeWorld threeTrees) (options round)).
Proof.
  apply (startRound_options threeWorld threeWorld threeTrees
           (treeAt threeWorld threeTrees 1) initialState
           "data:image/png;base64,iVBOR").
  - apply stillWorld_sortPermutes.
  - vm_compute; tauto.
  - reflexivity.
Defined.

(** C1, as the specification words it, fails on a pool in which the
    provider named two specimens alike: the round for the first of the twins
    offers the same label twice. *)
Lemma startRound_options_twins :
  sortPermutes twinWorld /\
  In (treeAt twinWorld twinTrees 0) (assignIds twinWorld twinTrees) /\
  exists s' round,
    startRound twinWorld (Some (treeAt twinWorld twinTrees 0))
      (assignIds twinWorld twinTrees) initialState = Returned tt s' /\
    status s' = GUESSING /\
    currentRound s' = Some round /\
    options round = ["English Oak"; "English Oak"] /\
    ~ optionsAsSpecified (treeAt twinWorld twinTrees 0)
        (assignIds twinWorld twinTrees) (options round).
Proof.
  split; [apply stillWorld_sortPermutes|].
  split; [vm_compute; tauto|].
  eexists; eexists; split; [reflexivity|].
  cbn; repeat split.
  intros (_ & ND & _).
  inversion ND as [|? ? Hn _]; apply Hn; now left.
Qed.

(** ** Returning to the trailhead *)

(** The handler of the return control, run in any state, sets [status] to
    [DIFFICULTY_SELECTION] and writes no other cell. *)
Lemma returnToDifficultySelection_only_status s :
  exists s',
    returnToDifficultySelection s = Returned tt s' /\
    status s' = DIFFICULTY_SELECTION /\
    onlyStatusDiffers s s'.
Proof.
  eexists; split; [reflexivity|]; cbn; repeat split.
Qed.

(** ** Guessing *)

Lemma handleGuess_incorrect w choice s round :
  currentRound s = Some round ->
  String.eqb choice (commonName (targetTree round)) = false ->
  handleGuess w choice s =
  Returned tt
    {| status := RESULT; difficulty := difficulty s;
       currentRound := Some round; pool := pool s; score := score s;
       selectedOption := Some choice; isCorrect := Some false;
       loadingStep := loadingStep s; isFactLoading := isFactLoading s |}.
Proof.
  intros Hr Hc; unfold handleGuess, bind, get; rewrite Hr; cbn; rewrite Hc; cbn.
  now rewrite Hr.
Qed.

Lemma handleGuess_correct w choice s round :
  currentRound s = Some round ->
  String.eqb choice (commonName (targetTree round)) = true ->
  handleGuess w choice s =
  Returned tt
    {| status := RESULT; difficulty := difficulty s;
       currentRound :=
         Some {| targetTree := targetTree round; options := options round;
                 autumnImageUrl := autumnImageUrl round;
                 springImageUrl :=
                   match imageOf w (springDescription (targetTree round)) spring with
                   | Some img => Some img
                   | None => springImageUrl round
                   end |};
       pool := pool s; score := score s + 1;
       selectedOption := Some choice; isCorrect := Some true;
       loadingStep := "Waiting for the first light of spring...";
       isFactLoading := isFactLoading s |}.
Proof.
  intros Hr Hc; unfold handleGuess, bind, get, try_catch; rewrite Hr; cbn; rewrite Hc; cbn.
  match goal with |- context [generateTreeImage w ?d ?x ?s0] =>
    pose proof (generateTreeImage_state w d x s0) as G end.
  destruct (imageOf w _ spring) as [img|].
  - rewrite G; cbn; rewrite Hr; reflexivity.
  - destruct G as [e G]; rewrite G; cbn; rewrite Hr; destruct round; reflexivity.
Qed.

Lemma handleGuess_no_round w choice s :
  currentRound s = None -> handleGuess w choice s = Returned tt s.
Proof. intros Hr; unfold handleGuess, bind, get; rewrite Hr; reflexivity. Qed.

(** C3.  Once a choice has been recorded ([selectedOption] is not [null])
    a further [selectOption] event is ignored: the option buttons are
    disabled, no handler runs, and the whole state, so the recorded choice,
    the score and the round, is what it was. *)
Theorem second_guess_ignored w s choice recorded :
  selectedOption s = Some recorded ->
  dispatch w (selectOption choice) s = Returned tt s.
Proof.
  intros H; unfold dispatch, optionEnabled; rewrite H.
  destruct (mainScreen s); [rewrite andb_false_r|]; reflexivity.
Qed.

Lemma second_guess_ignored_witness :
  dispatch threeWorld (selectOption "English Oak")
    (step (run initialState [(threeWorld, selectDifficulty EASY)])
          (stillWorld None noImage, selectOption "Silver Birch"))
  = Returned tt
      (step (run initialState [(threeWorld, selectDifficulty EASY)])
            (stillWorld None noImage, selectOption "Silver Birch")).
Proof.
  apply (second_guess_ignored threeWorld _ "English Oak" "Silver Birch").
  reflexivity.
Defined.

(** An accepted guess is recorded and ends the guessing phase, which is
    why the guard of C3 is in force from the first guess of a round on. *)
Lemma accepted_guess_recorded w s choice :
  optionEnabled s choice = true ->
  let s' := step s (w, selectOption choice) in
  selectedOption s' = Some choice /\ status s' = RESULT.
Proof.
  intros En; unfold step, dispatch; cbn [fst snd]; rewrite En.
  unfold optionEnabled, mainScreen in En.
  destruct (returnControlRendered s); [|discriminate].
  destruct (currentRound s) as [round|] eqn:Hr; [|discriminate].
  destruct (String.eqb choice (commonName (targetTree round))) eqn:Hc.
  - rewrite (handleGuess_correct _ _ _ _ Hr Hc); split; reflexivity.
  - rewrite (handleGuess_incorrect _ _ _ _ Hr Hc); split; reflexivity.
Qed.

(** Within a round a recorded choice stays recorded. *)
Lemma recorded_choice_stays s we :
  staysInRound we = true -> selectedOption s <> None ->
  selectedOption (step s we) <> None /\ acceptedGuess s (snd we) = false.
Proof.
  destruct we as [w ev]; unfold staysInRound, step, dispatch; cbn [fst snd].
  destruct (selectedOption s) as [recorded|] eqn:Hsel; [intros Hev _|intros _ H; now elim H].
  destruct ev as [d|choice| | |names|]; try discriminate; cbn [acceptedGuess].
  - unfold optionEnabled; rewrite Hsel.
    destruct (mainScreen s); [rewrite andb_false_r|]; cbn; rewrite Hsel; split;
      auto; discriminate.
  - split; [|reflexivity].
    destruct (newFactEnabled s); [|cbn; rewrite Hsel; discriminate].
    unfold handleRegenerateFact_request, bind, get.
    destruct (currentRound s); [destruct (isFactLoading s)|]; cbn; rewrite Hsel;
      discriminate.
  - split; [|reflexivity].
    destruct (isFactLoading s); [|cbn; rewrite Hsel; discriminate].
    unfold handleRegenerateFact_settle, try_finally, try_catch, bind, fetchNewFunFact.
    destruct (funFactResponse w (fst names) (snd names)); cbn; rewrite Hsel;
      discriminate.
  - split; [|reflexivity].
    destruct (returnControlRendered s); cbn; rewrite Hsel; discriminate.
Qed.

Lemma no_guess_once_recorded s trace :
  forallb staysInRound trace = true -> selectedOption s <> None ->
  guessesIn s trace = 0.
Proof.
  revert s; induction trace as [|we trace IH]; intros s Hall Hsel; [reflexivity|].
  cbn [forallb] in Hall; apply andb_prop in Hall; destruct Hall as [Hwe Hall].
  destruct (recorded_choice_stays s we Hwe Hsel) as [Hsel' Hno].
  cbn [guessesIn]; rewrite Hno, (IH _ Hall Hsel'); reflexivity.
Qed.

(** Between two round starts the interface accepts one guess at most. *)
Lemma one_guess_per_round s trace :
  forallb staysInRound trace = true -> guessesIn s trace <= 1.
Proof.
  revert s; induction trace as [|we trace IH]; intros s Hall; cbn [guessesIn]; [lia|].
  cbn [forallb] in Hall; apply andb_prop in Hall; destruct Hall as [Hwe Hall].
  destruct (acceptedGuess s (snd we)) eqn:Hacc.
  - destruct we as [w [d|choice| | |names|]]; try discriminate.
    cbn [acceptedGuess snd] in Hacc.
    destruct (accepted_guess_recorded w s choice Hacc) as [Hsel _].
    rewrite (no_guess_once_recorded _ trace Hall); [lia|].
    rewrite Hsel; discriminate.
  - specialize (IH (step s we) Hall); lia.
Qed.

(** ** Starting a round, starting a trail *)

(** [startRound] never throws: it ends in [GUESSING] with a fresh round or
    in [ERROR] with the round it found. *)
Lemma startRound_cases w target currentPool s :
  (exists t img, target = Some t /\
     imageOf w (autumnDescription t) autumn = Some img /\
     startRound w target currentPool s = Returned tt (roundStarted w t currentPool img s))
  \/ startRound w target currentPool s = Returned tt (roundFailed s).
Proof.
  destruct target as [t|].
  - destruct (imageOf w (autumnDescription t) autumn) as [img|] eqn:E.
    + left; exists t, img; repeat split; auto. now apply startRound_success.
    + right; now apply startRound_failure.
  - right; now apply startRound_failure.
Qed.

Lemma initGame_unfold w d s :
  initGame w d s =
  match treeListResponse w d with
  | None => Returned tt (withStatus ERROR (trailLoading d s))
  | Some data =>
      startRound w (at_index (assignIds w data) 0) (assignIds w data)
        (withPool (assignIds w data) (trailLoading d s))
  end.
Proof.
  unfold initGame, try_catch, bind, fetchNewTrees; cbn -[startRound assignIds at_index].
  destruct (treeListResponse w d) as [data|]; cbn -[startRound assignIds at_index];
    [|reflexivity].
  set (s1 := withPool (assignIds w data) (trailLoading d s)).
  transitivity
    (match startRound w (at_index (assignIds w data) 0) (assignIds w data) s1 with
     | Returned a s' => Returned a s'
     | Thrown e s' => setStatus ERROR s'
     end); [reflexivity|].
  destruct (startRound_cases w (at_index (assignIds w data) 0) (assignIds w data) s1)
    as [(t' & img & _ & _ & ->)| ->]; reflexivity.
Qed.

Lemma startRound_score w target currentPool s :
  score (finalState (startRound w target currentPool s)) = score s.
Proof.
  destruct (startRound_cases w target currentPool s)
    as [(t & img & _ & _ & ->)| ->]; reflexivity.
Qed.

Lemma startRound_pool w target currentPool s :
  pool (finalState (startRound w target currentPool s)) = pool s /\
  difficulty (finalState (startRound w target currentPool s)) = difficulty s.
Proof.
  destruct (startRound_cases w target currentPool s)
    as [(t & img & _ & _ & ->)| ->]; split; reflexivity.
Qed.

Lemma initGame_score w d s : score (finalState (initGame w d s)) = score s.
Proof.
  rewrite initGame_unfold; destruct (treeListResponse w d); [|reflexivity].
  now rewrite startRound_score.
Qed.

Lemma nextRound_score w s : score (finalState (nextRound w s)) = score s.
Proof.
  unfold nextRound, bind, get.
  destruct (nextIdx s <? _)%Z; [apply startRound_score|].
  destruct (difficulty s); [apply initGame_score|reflexivity].
Qed.

Lemma handleRegenerateFact_settle_score w names s :
  score (finalState (handleRegenerateFact_settle w names s)) = score s.
Proof.
  unfold handleRegenerateFact_settle, try_finally, try_catch, bind, fetchNewFunFact.
  destruct (funFactResponse w (fst names) (snd names)); reflexivity.
Qed.

(** ** The score *)

Lemma handleGuess_score w choice s :
  score (finalState (handleGuess w choice s)) =
  score s + (if isCorrectChoice s choice then 1 else 0).
Proof.
  unfold isCorrectChoice.
  destruct (currentRound s) as [round|] eqn:Hr.
  - destruct (String.eqb choice (commonName (targetTree round))) eqn:Hc.
    + rewrite (handleGuess_correct _ _ _ _ Hr Hc); reflexivity.
    + rewrite (handleGuess_incorrect _ _ _ _ Hr Hc); cbn; lia.
  - rewrite (handleGuess_no_round _ _ _ Hr); cbn; lia.
Qed.

(** One event moves the score by one when it is an accepted correct guess
    and leaves it alone otherwise. *)
Lemma step_score s we :
  score (step s we) = score s + (if acceptedCorrectGuess s (snd we) then 1 else 0).
Proof.
  destruct we as [w ev]; unfold step, dispatch; cbn [fst snd].
  destruct ev as [d|choice| | |names|]; cbn [acceptedCorrectGuess].
  - destruct (GameStatus_eqb _ _); [rewrite initGame_score|cbn]; lia.
  - destruct (optionEnabled s choice); cbn [andb finalState]; [|lia].
    apply handleGuess_score.
  - destruct (nextRendered s); [rewrite nextRound_score|cbn]; lia.
  - destruct (newFactEnabled s); [|cbn; lia].
    unfold handleRegenerateFact_request, bind, get.
    destruct (currentRound s); [destruct (isFactLoading s)|]; cbn; lia.
  - destruct (isFactLoading s); [rewrite handleRegenerateFact_settle_score|cbn]; lia.
  - destruct (returnControlRendered s); cbn; lia.
Qed.

Lemma run_score s trace :
  score (run s trace) = score s + correctGuessesIn s trace.
Proof.
  revert s; induction trace as [|we trace IH]; intros s; cbn [run fold_left correctGuessesIn].
  - lia.
  - change (fold_left step trace (step s we)) with (run (step s we) trace).
    rewrite IH, step_score; lia.
Qed.

(** ** The return event *)

(** C2, as the code has it.  Whatever the state, the event of the return
    control discards nothing.  Where the control is on the screen, which is
    at every status but [DIFFICULTY_SELECTION] and [LOADING], the event sets
    [status] to [DIFFICULTY_SELECTION]; where it is not, so also while a
    trail or a round is loading, the event is ignored and the state is what
    it was.  In both cases every other cell, so the pool, the current round
    and the score, keeps its value.  Nor is the score reset afterwards: the
    trail chosen next starts from it, and after any further events the
    score is the kept one plus the correct guesses accepted since. *)
Theorem returnToSelection_discards_nothing w s :
  let s' := step s (w, returnToSelection) in
  dispatch w returnToSelection s = Returned tt s' /\
  (if returnControlRendered s then status s' = DIFFICULTY_SELECTION else s' = s) /\
  onlyStatusDiffers s s' /\
  (forall w' d, score (step s' (w', selectDifficulty d)) = score s) /\
  (forall trace, score (run s' trace) = score s + correctGuessesIn s' trace).
Proof.
  cbn zeta.
  assert (Hscore : score (step s (w, returnToSelection)) = score s)
    by (rewrite step_score; cbn; lia).
  split; [|split; [|split; [|split]]].
  - unfold step, dispatch; cbn [fst snd].
    destruct (returnControlRendered s); reflexivity.
  - unfold step, dispatch; cbn [fst snd].
    destruct (returnControlRendered s); reflexivity.
  - unfold step, dispatch; cbn [fst snd].
    destruct (returnControlRendered s); cbn; repeat split.
  - intros w' d; rewrite step_score, Hscore; cbn; lia.
  - intros trace; rewrite run_score, Hscore; reflexivity.
Qed.

(** C2, as the specification words it, fails: after one correct guess the
    return control leaves the score at 1, the pool and the round in place,
    and the next trail starts from that score. *)
Lemma returnToSelection_keeps_session :
  let s := run initialState oneCorrectGuess in
  let s' := step s (threeWorld, returnToSelection) in
  status s = RESULT /\
  status s' = DIFFICULTY_SELECTION /\
  score s' = 1 /\
  List.length (pool s') = 3 /\
  ~ sessionCleared s' /\
  score (step s' (threeWorld, selectDifficulty HARD)) = 1.
Proof.
  cbn zeta. repeat split; try reflexivity.
  intros (H & _); vm_compute in H; discriminate.
Qed.

(** ** Counting the correct guesses *)

(** C4.  Starting from score 0, after a session in which [k] correct
    guesses were accepted the score is [k], whatever else happened in
    between; and a guess whose choice is not, character for character, the
    common name of the target leaves the score where it is. *)
Theorem score_counts_correct_guesses s trace k w choice :
  score s = 0 ->
  correctGuessesIn s trace = k ->
  isCorrectChoice (run s trace) choice = false ->
  score (run s trace) = k /\
  score (finalState (handleGuess w choice (run s trace))) = k /\
  score (step (run s trace) (w, selectOption choice)) = k.
Proof.
  intros H0 Hk Hwrong.
  assert (R : score (run s trace) = k) by (rewrite run_score; lia).
  split; [exact R|]. split.
  - rewrite handleGuess_score, Hwrong; lia.
  - rewrite step_score; cbn [snd acceptedCorrectGuess].
    rewrite Hwrong, andb_false_r; lia.
Qed.

Lemma score_counts_correct_guesses_witness :
  score (run initialState threeCorrectGuesses) = 3 /\
  score (finalState (handleGuess threeWorld "English Oak"
                       (run initialState threeCorrectGuesses))) = 3 /\
  score (step (run initialState threeCorrectGuesses)
              (threeWorld, selectOption "English Oak")) = 3.
Proof.
  apply (score_counts_correct_guesses initialState threeCorrectGuesses 3
           threeWorld "English Oak"); reflexivity.
Defined.

(** ** The "after" image *)

(** C5.  When the guess is right and the "after" image request fails,
    [handleGuess] still returns (nothing is thrown to its caller) in
    [RESULT]; the round is untouched, so its [springImageUrl] stays [null]
    and the image shown is the "before" image; and the score, the pool and
    the index of the next specimen are those of a world in which the
    request succeeds. *)
Theorem handleGuess_after_image_fails w w' s round choice img :
  currentRound s = Some round ->
  springImageUrl round = None ->
  choice = commonName (targetTree round) ->
  imageOf w (springDescription (targetTree round)) spring = None ->
  imageOf w' (springDescription (targetTree round)) spring = Some img ->
  exists s' s'',
    handleGuess w choice s = Returned tt s' /\
    handleGuess w' choice s = Returned tt s'' /\
    status s' = RESULT /\
    currentRound s' = Some round /\
    displayedImage s' round = autumnImageUrl round /\
    status s'' = RESULT /\
    score s' = score s'' /\
    score s' = score s + 1 /\
    pool s' = pool s'' /\
    nextIdx s' = nextIdx s''.
Proof.
  intros Hr Hspring -> Hfail Hok.
  pose proof (String.eqb_refl (commonName (targetTree round))) as Hc.
  eexists; eexists.
  split; [apply (handleGuess_correct _ _ _ _ Hr Hc)|].
  split; [apply (handleGuess_correct _ _ _ _ Hr Hc)|].
  rewrite Hfail, Hok, Hspring; cbn.
  repeat split.
  - destruct round; cbn in *; now subst.
  - unfold or_else; now rewrite Hspring.
Qed.

Lemma handleGuess_after_image_fails_witness :
  exists s' s'',
    handleGuess noSpringWorld "Sugar Maple" firstRoundOpen = Returned tt s' /\
    handleGuess threeWorld "Sugar Maple" firstRoundOpen = Returned tt s'' /\
    status s' = RESULT /\
    currentRound s' = Some firstRound /\
    displayedImage s' firstRound = autumnImageUrl firstRound /\
    status s'' = RESULT /\
    score s' = score s'' /\
    score s' = score firstRoundOpen + 1 /\
    pool s' = pool s'' /\
    nextIdx s' = nextIdx s''.
Proof.
  apply (handleGuess_after_image_fails noSpringWorld threeWorld
           firstRoundOpen firstRound "Sugar Maple"
           "data:image/png;base64,iVBOR"); reflexivity.
Defined.

(** ** A failed "before" image *)

(** C10, as the code has it.  When the "before" image request fails,
    [startRound] returns in [ERROR]; the current round (that of the round
    before, if any), the pool, the score and every other cell keep their
    values, except that [loadingStep] holds the message [startRound] set
    before the request. *)
Theorem startRound_before_image_fails w t currentPool s :
  imageOf w (autumnDescription t) autumn = None ->
  exists s',
    startRound w (Some t) currentPool s = Returned tt s' /\
    status s' = ERROR /\
    currentRound s' = currentRound s /\
    pool s' = pool s /\
    score s' = score s /\
    difficulty s' = difficulty s /\
    selectedOption s' = selectedOption s /\
    isCorrect s' = isCorrect s /\
    isFactLoading s' = isFactLoading s /\
    loadingStep s' = "Isolating seasonal markers for the next specimen...".
Proof.
  intros H; eexists; split.
  - apply (startRound_failure w (Some t) currentPool s H).
  - cbn; repeat split.
Qed.

Lemma startRound_before_image_fails_witness :
  exists s',
    startRound noImageWorld (Some (treeAt threeWorld threeTrees 1))
      (assignIds threeWorld threeTrees) (run initialState oneCorrectGuess)
    = Returned tt s' /\
    status s' = ERROR /\
    currentRound s' = currentRound (run initialState oneCorrectGuess) /\
    pool s' = pool (run initialState oneCorrectGuess) /\
    score s' = score (run initialState oneCorrectGuess) /\
    difficulty s' = difficulty (run initialState oneCorrectGuess) /\
    selectedOption s' = selectedOption (run initialState oneCorrectGuess) /\
    isCorrect s' = isCorrect (run initialState oneCorrectGuess) /\
    isFactLoading s' = isFactLoading (run initialState oneCorrectGuess) /\
    loadingStep s' = "Isolating seasonal markers for the next specimen...".
Proof.
  apply (startRound_before_image_fails noImageWorld
           (treeAt threeWorld threeTrees 1) (assignIds threeWorld threeTrees)
           (run initialState oneCorrectGuess)).
  reflexivity.
Defined.

(** C10, as worded, says that only [status] changes.  After a correct
    guess the loading message is the one of the "after" image; a failed
    [startRound] for the next specimen replaces it. *)
Lemma startRound_failure_changes_loadingStep :
  let s := run initialState oneCorrectGuess in
  let s' := finalState (startRound noImageWorld (Some (treeAt threeWorld threeTrees 1))
                          (pool s) s) in
  imageOf noImageWorld (autumnDescription (treeAt threeWorld threeTrees 1)) autumn = None /\
  status s' = ERROR /\
  loadingStep s = "Waiting for the first light of spring..." /\
  loadingStep s' = "Isolating seasonal markers for the next specimen..." /\
  ~ onlyStatusDiffers s s'.
Proof.
  cbn zeta; repeat split.
  intros (_ & _ & _ & _ & _ & _ & H & _); vm_compute in H; discriminate.
Qed.

(** ** Advancing through the pool *)

Lemma at_index_In {A} (l : list A) i x : at_index l i = Some x -> In x l.
Proof.
  unfold at_index; destruct (i <? 0)%Z; [discriminate|].
  apply nth_error_In.
Qed.

Lemma wellFormed_startRound w target currentPool s :
  NoDup (map id (pool s)) ->
  (forall t, target = Some t -> In t (pool s)) ->
  difficulty s <> None ->
  wellFormed (finalState (startRound w target currentPool s)).
Proof.
  intros ND Ht Hd.
  destruct (startRound_cases w target currentPool s)
    as [(t & img & E & _ & ->)| ->]; cbn [finalState]; split; cbn; auto.
  - intros _. destruct (difficulty s) as [d|]; [|now elim Hd].
    eexists; exists d; repeat split. apply in_map; auto.
  - intros [H|H]; discriminate.
Qed.

Lemma wellFormed_initGame w d s :
  NoDup (map id (pool s)) -> wellFormed (finalState (initGame w d s)).
Proof.
  intros ND; rewrite initGame_unfold.
  destruct (treeListResponse w d) as [data|].
  - apply wellFormed_startRound; cbn [pool difficulty withPool trailLoading].
    + apply assignIds_NoDup.
    + intros t Ht; now apply at_index_In in Ht.
    + discriminate.
  - split; cbn; auto. intros [H|H]; discriminate.
Qed.

Lemma wellFormed_same s s' :
  pool s' = pool s -> status s' = status s ->
  currentRound s' = currentRound s -> difficulty s' = difficulty s ->
  wellFormed s -> wellFormed s'.
Proof.
  unfold wellFormed, inPlay; intros -> -> -> ->; auto.
Qed.

Lemma wellFormed_step s we : wellFormed s -> wellFormed (step s we).
Proof.
  intros [ND Hplay]; destruct we as [w ev]; unfold step, dispatch; cbn [fst snd].
  destruct ev as [d|choice| | |names|].
  - destruct (GameStatus_eqb _ _); [now apply wellFormed_initGame|split; auto].
  - destruct (optionEnabled s choice) eqn:En; [|split; auto].
    unfold optionEnabled, mainScreen in En.
    destruct (returnControlRendered s); [|discriminate].
    destruct (currentRound s) as [round|] eqn:Hr; [|discriminate].
    destruct (status s) eqn:Hs; try discriminate.
    destruct Hplay as (round' & d & Hr' & Hd & Hin); [now left|].
    injection Hr' as <-.
    destruct (String.eqb choice (commonName (targetTree round))) eqn:Hc.
    + rewrite (handleGuess_correct _ _ _ _ Hr Hc); split; cbn; auto.
      intros _; eexists; exists d; repeat split; auto.
    + rewrite (handleGuess_incorrect _ _ _ _ Hr Hc); split; cbn; auto.
      intros _; eexists; exists d; repeat split; auto.
  - destruct (nextRendered s) eqn:En; [|split; auto].
    unfold nextRendered, mainScreen in En.
    destruct (returnControlRendered s); [|discriminate].
    destruct (currentRound s) as [round|] eqn:Hr; [|discriminate].
    destruct (status s) eqn:Hs; try discriminate.
    destruct Hplay as (round' & d & Hr' & Hd & Hin); [now right|].
    unfold nextRound, bind, get.
    destruct (nextIdx s <? _)%Z.
    + apply wellFormed_startRound; auto.
      * intros t Ht; now apply at_index_In in Ht.
      * rewrite Hd; discriminate.
    + rewrite Hd; now apply wellFormed_initGame.
  - destruct (newFactEnabled s); [|split; auto].
    apply (wellFormed_same s); [..|split; auto];
      unfold handleRegenerateFact_request, bind, get;
      destruct s as [st df cr pl sc so ic ls fl]; cbn;
      (destruct cr; [destruct fl|]; reflexivity).
  - destruct (isFactLoading s); [|split; auto].
    unfold handleRegenerateFact_settle, try_finally, try_catch, bind, fetchNewFunFact.
    destruct (funFactResponse w (fst names) (snd names)); cbn; split; auto.
    cbn. intros Hp; destruct (Hplay Hp) as (round & d & -> & Hd & Hin).
    eexists; exists d; repeat split; auto.
  - destruct (returnControlRendered s); [|split; auto].
    split; cbn; auto. intros [H|H]; discriminate.
Qed.

(** Every state of a session is well formed. *)
Lemma wellFormed_run trace : wellFormed (run initialState trace).
Proof.
  assert (G : forall s, wellFormed s -> wellFormed (run s trace)).
  { induction trace as [|we trace IH]; intros s H; cbn; auto.
    apply IH, wellFormed_step, H. }
  apply G; split; cbn; [constructor|intros [H|H]; discriminate].
Qed.

Lemma findIndex_from_split {A} (p : A -> bool) before x after k :
  (forall y, In y before -> p y = false) -> p x = true ->
  findIndex_from p (before ++ x :: after) k = (k + Z.of_nat (List.length before))%Z.
Proof.
  revert k; induction before as [|b before IH]; intros k Hb Hx; cbn [app findIndex_from].
  - rewrite Hx; cbn; lia.
  - rewrite (Hb b) by now left.
    rewrite IH; auto; [cbn [List.length]; lia|].
    intros y Hy; apply Hb; now right.
Qed.

Lemma first_with_id i l :
  In i (map id l) ->
  exists before x after,
    l = before ++ x :: after /\ id x = i /\ ~ In i (map id before).
Proof.
  induction l as [|a l IH]; cbn; [contradiction|]; intros H.
  destruct (string_dec (id a) i) as [E|E].
  - exists [], a, l; repeat split; auto.
  - destruct H as [H|H]; [contradiction|].
    destruct (IH H) as (before & x & after & -> & Hx & Hn).
    exists (a :: before), x, after; repeat split; auto.
    cbn; intros [H'|H']; auto.
Qed.

Lemma at_index_after {A} (before : list A) x after :
  at_index (before ++ x :: after) (Z.of_nat (List.length before) + 1)
  = match after with next :: _ => Some next | [] => None end.
Proof.
  unfold at_index.
  destruct (Z.ltb_spec (Z.of_nat (List.length before) + 1) 0); [lia|].
  replace (Z.to_nat (Z.of_nat (List.length before) + 1))
    with (List.length before + 1) by lia.
  rewrite nth_error_app2 by lia.
  replace (List.length before + 1 - List.length before) with 1 by lia.
  destruct after; reflexivity.
Qed.

(** What [nextRound] does in a state whose pool holds the current target
    exactly once. *)
Lemma nextRound_in_pool_order w s round before current after :
  currentRound s = Some round ->
  pool s = before ++ current :: after ->
  id current = id (targetTree round) ->
  ~ In (id current) (map id before) ->
  nextRound w s =
  match after with
  | next :: _ => startRound w (Some next) (pool s) s
  | [] => match difficulty s with
          | Some d => initGame w d s
          | None => Returned tt s
          end
  end.
Proof.
  intros Hr Hp Hid Hfirst.
  assert (Hn : nextIdx s = (Z.of_nat (List.length before) + 1)%Z).
  { unfold nextIdx, findIndex; rewrite Hr, Hp.
    rewrite findIndex_from_split; [lia| |].
    - intros y Hy; destruct (String.eqb_spec (id y) (id (targetTree round))) as [E|]; auto.
      elim Hfirst; rewrite Hid, <- E; now apply in_map.
    - rewrite Hid; apply String.eqb_refl. }
  assert (HL : List.length (pool s) = List.length before + 1 + List.length after)
    by (rewrite Hp, length_app; cbn [List.length]; lia).
  assert (HA : at_index (pool s) (Z.of_nat (List.length before) + 1)
               = match after with next :: _ => Some next | [] => None end)
    by (rewrite Hp; apply at_index_after).
  unfold nextRound, bind, get; rewrite Hn, HL, HA.
  destruct after as [|next after]; cbn [List.length].
  - destruct (Z.ltb_spec (Z.of_nat (List.length before) + 1)
                         (Z.of_nat (List.length before + 1 + 0))); [lia|].
    destruct (difficulty s); reflexivity.
  - destruct (Z.ltb_spec (Z.of_nat (List.length before) + 1)
                         (Z.of_nat (List.length before + 1 + S (List.length after))));
      [reflexivity|lia].
Qed.

(** C6.  In every [RESULT] state of a session the pool holds the current
    target exactly once.  The advance event starts a round for the specimen
    right after it in the pool when there is one, so that, the "before"
    image arriving, that specimen is the next target and the pool is the
    same; otherwise it asks [initGame] for a new pool of the difficulty in
    force, which, the provider answering, replaces the pool. *)
Theorem advance_follows_pool_order trace w :
  status (run initialState trace) = RESULT ->
  exists round d before current after,
    currentRound (run initialState trace) = Some round /\
    difficulty (run initialState trace) = Some d /\
    pool (run initialState trace) = before ++ current :: after /\
    id current = id (targetTree round) /\
    ~ In (id current) (map id (before ++ after)) /\
    dispatch w advance (run initialState trace) =
      match after with
      | next :: _ =>
          startRound w (Some next) (pool (run initialState trace))
            (run initialState trace)
      | [] => initGame w d (run initialState trace)
      end /\
    (forall next rest img,
        after = next :: rest ->
        imageOf w (autumnDescription next) autumn = Some img ->
        exists round',
          currentRound (step (run initialState trace) (w, advance)) = Some round' /\
          targetTree round' = next /\
          status (step (run initialState trace) (w, advance)) = GUESSING /\
          pool (step (run initialState trace) (w, advance))
          = pool (run initialState trace)) /\
    (forall data,
        after = [] ->
        treeListResponse w d = Some data ->
        pool (step (run initialState trace) (w, advance)) = assignIds w data /\
        difficulty (step (run initialState trace) (w, advance)) = Some d).
Proof.
  set (s := run initialState trace); intros Hs.
  destruct (wellFormed_run trace) as [ND Hplay]; fold s in ND, Hplay.
  destruct Hplay as (round & d & Hr & Hd & Hin); [now right|].
  destruct (first_with_id _ _ Hin) as (before & current & after & Hp & Hid & Hfirst).
  exists round, d, before, current, after.
  do 4 (split; [assumption|]).
  split.
  { rewrite Hp, map_app in ND; cbn [map] in ND.
    apply NoDup_remove_2 in ND; now rewrite map_app. }
  assert (D : dispatch w advance s =
              match after with
              | next :: _ => startRound w (Some next) (pool s) s
              | [] => initGame w d s
              end).
  { unfold dispatch, nextRendered, mainScreen, returnControlRendered.
    rewrite Hs, Hr; cbn [GameStatus_eqb negb andb].
    rewrite (nextRound_in_pool_order w s round before current after Hr Hp);
      [|now rewrite Hid|now rewrite Hid].
    rewrite Hd; reflexivity. }
  split; [exact D|]. split.
  - intros next rest img -> Himg.
    unfold step; cbn [fst snd]; rewrite D.
    rewrite (startRound_success _ _ _ _ _ Himg).
    eexists; repeat split.
  - intros data -> Hdata.
    unfold step; cbn [fst snd]; rewrite D, initGame_unfold, Hdata.
    match goal with |- context [startRound w ?t ?p ?s0] =>
      destruct (startRound_pool w t p s0) as [-> ->] end.
    split; reflexivity.
Qed.

Lemma advance_follows_pool_order_witness :
  exists round d before current after,
    currentRound (run initialState oneCorrectGuess) = Some round /\
    difficulty (run initialState oneCorrectGuess) = Some d /\
    pool (run initialState oneCorrectGuess) = before ++ current :: after /\
    id current = id (targetTree round) /\
    ~ In (id current) (map id (before ++ after)) /\
    dispatch threeWorld advance (run initialState oneCorrectGuess) =
      match after with
      | next :: _ =>
          startRound threeWorld (Some next) (pool (run initialState oneCorrectGuess))
            (run initialState oneCorrectGuess)
      | [] => initGame threeWorld d (run initialState oneCorrectGuess)
      end /\
    (forall next rest img,
        after = next :: rest ->
        imageOf threeWorld (autumnDescription next) autumn = Some img ->
        exists round',
          currentRound (step (run initialState oneCorrectGuess) (threeWorld, advance))
          = Some round' /\
          targetTree round' = next /\
          status (step (run initialState oneCorrectGuess) (threeWorld, advance))
          = GUESSING /\
          pool (step (run initialState oneCorrectGuess) (threeWorld, advance))
          = pool (run initialState oneCorrectGuess)) /\
    (forall data,
        after = [] ->
        treeListResponse threeWorld d = Some data ->
        pool (step (run initialState oneCorrectGuess) (threeWorld, advance))
        = assignIds threeWorld data /\
        difficulty (step (run initialState oneCorrectGuess) (threeWorld, advance))
        = Some d).
Proof.
  apply (advance_follows_pool_order oneCorrectGuess threeWorld).
  reflexivity.
Defined.

(* ================================================================== *)
(** * Properties of the globe *)

Module GlobeFacts.

Import Globe.
Local Open Scope R_scope.

(** ** The pulse *)

Lemma pulseWave_range t : 0 <= pulseWave t <= 1.
Proof.
  unfold pulseWave; destruct (SIN_bound (t / 300)); lra.
Qed.

Lemma PI_gt_3 : 3 < PI.
Proof. pose proof PI2_3_2; lra. Qed.

Lemma pulseWave_period : isPeriod pulseWave (600 * PI).
Proof.
  split; [pose proof PI_gt_3; lra|].
  intros t; unfold pulseWave.
  replace ((t + 600 * PI) / 300) with (t / 300 + 2 * INR 1 * PI) by (cbn; lra).
  now rewrite sin_period.
Qed.

Lemma cos_lt_1 u : 0 < u < 2 * PI -> cos u < 1.
Proof.
  intros [H0 H1].
  replace u with (2 * (u / 2)) by lra.
  rewrite cos_2a_sin.
  assert (0 < sin (u / 2)) by (apply sin_gt_0; lra).
  nra.
Qed.

(** No shorter time than [600 * PI] milliseconds is a period. *)
Lemma pulseWave_least q : isPeriod pulseWave q -> 600 * PI <= q.
Proof.
  intros [Hq H].
  destruct (Rle_lt_dec (600 * PI) q) as [|Hlt]; [assumption|exfalso].
  specialize (H (150 * PI)); unfold pulseWave in H.
  replace ((150 * PI + q) / 300) with (PI / 2 + q / 300) in H by lra.
  replace (150 * PI / 300) with (PI / 2) in H by lra.
  rewrite <- cos_sin, sin_PI2 in H.
  assert (cos (q / 300) < 1) by (apply cos_lt_1; lra).
  lra.
Qed.

Lemma marker_shape p now loc :
  marker p now loc = [] \/
  exists x y,
    marker p now loc =
    [ fillArc x y 4 "#a3b18a";
      strokeArc x y (4 + pulseAt now * 15) (4 / 10 * (1 - pulseAt now)) ].
Proof.
  unfold marker, project.
  destruct (Rlt_dec _ _); [right|left; reflexivity].
  eexists; eexists; reflexivity.
Qed.

(** C9, as the code has it.  Whatever the reading [now] of the clock, the
    pulse is [(sin (now / 300) + 1) / 2], a value of [[0, 1]]; a marker
    that is drawn is a dot of radius 4 and a ring whose radius and opacity
    are functions of that pulse alone, so all markers drawn at one reading
    agree.  The wave repeats every [600 * PI] milliseconds (between 1800
    and 2400; about 1885) and no sooner. *)
Theorem pulse_of_markers p now loc :
  0 <= pulseAt now <= 1 /\
  pulseAt now = (sin (IZR now / 300) + 1) / 2 /\
  (marker p now loc = [] \/
   exists x y,
     marker p now loc =
     [ fillArc x y 4 "#a3b18a";
       strokeArc x y (4 + pulseAt now * 15) (4 / 10 * (1 - pulseAt now)) ]) /\
  isPeriod pulseWave (600 * PI) /\
  ~ (exists q, q < 600 * PI /\ isPeriod pulseWave q) /\
  1800 < 600 * PI <= 2400.
Proof.
  split; [apply pulseWave_range|].
  split; [reflexivity|].
  split; [apply marker_shape|].
  split; [apply pulseWave_period|].
  split.
  - intros (q & Hq & Hp); apply pulseWave_least in Hp; lra.
  - pose proof PI_gt_3; pose proof PI_4; lra.
Qed.

(** C9, as the specification words it, gives the wave a period of 300 to
    400 milliseconds.  350 milliseconds after the reading 0 the pulse is not
    back at its value, and no time in that range is a period. *)
Lemma pulse_period_not_300_400 :
  pulseAt (0 + 350) <> pulseAt 0 /\
  ~ (exists q, 300 <= q <= 400 /\ isPeriod pulseWave q).
Proof.
  split.
  - unfold pulseAt, pulseWave; cbn [Z.add].
    replace (0 / 300) with 0 by lra; rewrite sin_0.
    assert (0 < sin (350 / 300)) by (apply sin_gt_0; pose proof PI_gt_3; lra).
    lra.
  - intros (q & Hq & Hp); apply pulseWave_least in Hp.
    pose proof PI_gt_3; lra.
Qed.

(** ** The render loop *)

Lemma trunc_nonneg x : 0 <= x -> trunc x = IZR (Int_part x).
Proof. intros H; unfold trunc; destruct (Rle_dec 0 x); [reflexivity|contradiction]. Qed.

Lemma trunc_integer x : exists n : Z, trunc x = IZR n.
Proof.
  unfold trunc; destruct (Rle_dec 0 x); [eexists; reflexivity|].
  exists (- Int_part (- x))%Z; now rewrite opp_IZR.
Qed.

Lemma rem_integer r m : exists n : Z, rem r m = r - m * IZR n.
Proof.
  unfold rem; destruct (trunc_integer (r / m)) as [n ->]; now exists n.
Qed.


Lemma rem_tilt : rem (- 15) 360 = - 15.
Proof.
  unfold rem, trunc.
  destruct (Rle_dec 0 (- 15 / 360)) as [H|_]; [lra|].
  replace (Int_part (- (- 15 / 360))) with 0%Z; [lra|].
  apply Int_part_spec; lra.
Qed.

Lemma radians_degrees x : x * radians * degrees = x.
Proof. unfold radians, degrees; field; apply PI_neq0. Qed.

Lemma rotate_get_rotate v q : rotate_get (rotate v q) = (rem (fst v) 360, rem (snd v) 360).
Proof. unfold rotate_get, rotate; cbn; now rewrite !radians_degrees. Qed.

Lemma render_running locations clock s :
  0 <= rotation s ->
  projection s = rotate (rotation s, - 15) projection0 \/ projection s = projection0 ->
  frameCallbacks s = [] ->
  running (render locations clock s) /\
  rotation (render locations clock s) = rotation s + 25 / 100.
Proof.
  intros Hr Hp Hc; split; [|reflexivity].
  split; [|split]; cbn.
  - exists (nextHandle s); rewrite Hc; split; reflexivity.
  - lra.
  - destruct Hp as [-> | ->]; reflexivity.
Qed.

Lemma start_running locations clock : running (start locations clock).
Proof.
  apply render_running; cbn; [lra|now right|reflexivity].
Qed.

Lemma frame_running locations clock s :
  running s ->
  running (frame locations clock s) /\
  rotation (frame locations clock s) = rotation s + 25 / 100.
Proof.
  intros ((h & Hc & _) & Hr & Hp); unfold frame; rewrite Hc; cbn [fold_left].
  match goal with |- running (render _ _ ?s0) /\ _ =>
    destruct (render_running locations clock s0) as [A B]; cbn; auto end.
Qed.

Lemma frames_running locations clocks s :
  running s -> running (frames locations clocks s).
Proof.
  revert s; induction clocks as [|clock clocks IH]; intros s H; cbn; auto.
  apply IH, frame_running, H.
Qed.

Lemma stop_cancels s : running s -> frameCallbacks (stop s) = [].
Proof.
  intros ((h & Hc & Ha) & _); unfold stop; cbn; rewrite Ha, Hc; cbn.
  now rewrite Nat.eqb_refl.
Qed.




(** ** Trigonometry *)

Lemma cos_period_Z x (n : Z) : cos (x + 2 * IZR n * PI) = cos x.
Proof.
  destruct n as [|q|q].
  - f_equal; lra.
  - rewrite <- (cos_period x (Pos.to_nat q)), INR_IZR_INZ, positive_nat_Z; reflexivity.
  - rewrite <- (cos_period (x + 2 * IZR (Z.neg q) * PI) (Pos.to_nat q)).
    rewrite INR_IZR_INZ, positive_nat_Z.
    f_equal. change (Z.neg q) with (- Z.pos q)%Z; rewrite opp_IZR; lra.
Qed.

Lemma cos_Rabs x : cos (Rabs x) = cos x.
Proof.
  unfold Rabs; destruct (Rcase_abs x); [apply cos_neg|reflexivity].
Qed.

(** For a point [(z, s)] of the upper half plane other than the origin,
    [atan2 s z] is an acute angle exactly when [z] is positive. *)
Lemma atan2_acute s z :
  0 <= s -> s * s + z * z = 1 -> (atan2 s z < PI / 2 <-> 0 < z).
Proof.
  intros Hs Hn; unfold atan2.
  pose proof PI_RGT_0 as HPI.
  destruct (Rlt_dec 0 z) as [Hz|Hz].
  - destruct (atan_bound (s / z)); tauto.
  - destruct (Rlt_dec z 0) as [Hz'|Hz'].
    + destruct (Rle_dec 0 s) as [_|Hs']; [|contradiction].
      destruct (atan_bound (s / z)); split; intros; lra.
    + assert (z = 0) by lra; subst z.
      destruct (Rlt_dec 0 s) as [_|Hs']; [split; intros; lra|].
      assert (s = 0) by lra; subst s; lra.
Qed.

Lemma sqr_sin_cos x : sin x * sin x + cos x * cos x = 1.
Proof. pose proof (sin2_cos2 x) as H; unfold Rsqr in H; exact H. Qed.

(** The three components [geoDistance] computes are those of a unit
    vector. *)
Lemma distance_unit phi0 phi delta :
  let x := cos phi * sin delta in
  let y := cos phi0 * sin phi - sin phi0 * cos phi * cos delta in
  let z := sin phi0 * sin phi + cos phi0 * cos phi * cos delta in
  x * x + y * y + z * z = 1.
Proof.
  cbv zeta.
  pose proof (sqr_sin_cos phi0); pose proof (sqr_sin_cos phi);
    pose proof (sqr_sin_cos delta).
  replace (_ + _ + _) with
    ((sin phi0 * sin phi0 + cos phi0 * cos phi0)
     * (sin phi * sin phi + cos phi * cos phi * (cos delta * cos delta))
     + cos phi * cos phi * (sin delta * sin delta))
    by ring.
  rewrite H, Rmult_1_l.
  replace (_ + _ + _) with
    (sin phi * sin phi
     + cos phi * cos phi * (sin delta * sin delta + cos delta * cos delta))
    by ring.
  rewrite H1, Rmult_1_r; exact H0.
Qed.

Lemma cosAngle_bounds a b : -1 <= cosAngle a b <= 1.
Proof.
  pose proof (distance_unit (snd a * radians) (snd b * radians)
                ((fst b - fst a) * radians)) as H; cbv zeta in H.
  unfold cosAngle.
  match type of H with ?x * ?x + ?y * ?y + ?z * ?z = 1 =>
    assert (Hx : 0 <= x * x) by apply Rle_0_sqr;
    assert (Hy : 0 <= y * y) by apply Rle_0_sqr;
    set (X := x * x) in *; set (Y := y * y) in *; set (Z := z) in *
  end.
  clearbody X Y Z; split; nra.
Qed.

(** [geoDistance] is acute exactly when the two directions make a positive
    cosine. *)
Lemma geoDistance_acute a b : geoDistance a b < PI / 2 <-> 0 < cosAngle a b.
Proof.
  unfold geoDistance, cosAngle.
  replace (fst b * radians - fst a * radians) with ((fst b - fst a) * radians) by ring.
  set (delta := (fst b - fst a) * radians).
  pose proof (distance_unit (snd a * radians) (snd b * radians) (Rabs delta)) as U;
    cbv zeta in U.
  rewrite (cos_Rabs delta) in *.
  apply atan2_acute; [apply sqrt_pos|].
  rewrite sqrt_sqrt; [exact U|].
  apply Rplus_le_le_0_compat; apply Rle_0_sqr.
Qed.

(** The great-circle distance is acute under the same condition. *)
Lemma greatCircle_acute a b : greatCircle a b < PI / 2 <-> 0 < cosAngle a b.
Proof.
  unfold greatCircle.
  pose proof (cosAngle_bounds a b) as B.
  pose proof (acos_bound (cosAngle a b)) as [A0 A1].
  pose proof (cos_acos _ B) as C.
  split; intros H.
  - rewrite <- C; apply cos_gt_0; lra.
  - destruct (Rlt_le_dec (acos (cosAngle a b)) (PI / 2)) as [|G]; [assumption|].
    assert (cos (acos (cosAngle a b)) <= 0) by (apply cos_le_0; lra).
    lra.
Qed.

(** ** The marker test and the clip circle *)

Lemma cos_atan2_front y x : 0 < x -> 0 < cos (atan2 y x).
Proof.
  intros H; unfold atan2; destruct (Rlt_dec 0 x); [|contradiction].
  destruct (atan_bound (y / x)); apply cos_gt_0; lra.
Qed.

Lemma cos_atan2_back y x : x < 0 -> cos (atan2 y x) < 0.
Proof.
  intros H; unfold atan2; pose proof PI_RGT_0.
  destruct (Rlt_dec 0 x); [lra|]. destruct (Rlt_dec x 0); [|contradiction].
  destruct (atan_bound (y / x)) as [A B].
  destruct (Rle_dec 0 y) as [Hy|Hy].
  - assert (atan (y / x) <= 0).
    { rewrite <- atan_0. destruct (Req_dec y 0) as [->|Hy0].
      - right; f_equal; unfold Rdiv; ring.
      - left; apply atan_increasing.
        apply Ropp_lt_cancel; rewrite Ropp_0.
        replace (- (y / x)) with (y * / - x) by (field; lra).
        apply Rmult_lt_0_compat; [lra|apply Rinv_0_lt_compat; lra]. }
    apply cos_lt_0; lra.
  - rewrite <- cos_neg; apply cos_lt_0; lra.
Qed.

Lemma cos_atan2_edge y : y <> 0 -> cos (atan2 y 0) = 0.
Proof.
  intros H; unfold atan2.
  destruct (Rlt_dec 0 0); [lra|]. destruct (Rlt_dec 0 0); [lra|].
  destruct (Rlt_dec 0 y); [apply cos_PI2|].
  destruct (Rlt_dec y 0); [rewrite cos_neg; apply cos_PI2|lra].
Qed.

(** The rotated direction is a unit vector. *)
Lemma rotation_unit lambda phi dp :
  let x := cos lambda * cos phi in
  let y := sin lambda * cos phi in
  let z := sin phi in
  let X := x * cos dp - z * sin dp in
  let K := z * cos dp + x * sin dp in
  X * X + y * y + K * K = 1.
Proof.
  cbv zeta.
  pose proof (sqr_sin_cos lambda) as H; pose proof (sqr_sin_cos phi) as H0;
    pose proof (sqr_sin_cos dp) as H1.
  replace (_ + _ + _) with
    ((sin dp * sin dp + cos dp * cos dp)
     * (cos lambda * cos lambda * (cos phi * cos phi) + sin phi * sin phi)
     + sin lambda * sin lambda * (cos phi * cos phi))
    by ring.
  rewrite H1, Rmult_1_l.
  replace (_ + _ + _) with
    ((sin lambda * sin lambda + cos lambda * cos lambda) * (cos phi * cos phi)
     + sin phi * sin phi)
    by ring.
  rewrite H, Rmult_1_l; lra.
Qed.

(** After the tilt, the clip test of the library looks at the sign of the
    component of the direction that points to the viewer. *)
Lemma clip_after_tilt p lambda phi :
  cos (theta p) = 0 ->
  clipVisible p (rotationPhiGamma (deltaPhi p) 0 (lambda, phi)) = true
  <-> 0 < cos lambda * cos phi * cos (deltaPhi p) - sin phi * sin (deltaPhi p).
Proof.
  intros Hth; unfold clipVisible, rotationPhiGamma; rewrite Hth; cbn [fst snd].
  rewrite cos_0, sin_0.
  pose proof (rotation_unit lambda phi (deltaPhi p)) as U; cbv zeta in U.
  set (X := cos lambda * cos phi * cos (deltaPhi p) - sin phi * sin (deltaPhi p)) in *.
  set (y := sin lambda * cos phi) in *.
  set (K := sin phi * cos (deltaPhi p) + cos lambda * cos phi * sin (deltaPhi p)) in *.
  replace (y * 1 - K * 0) with y by ring.
  replace (K * 1 + y * 0) with K by ring.
  assert (HK : -1 <= K <= 1) by (clearbody X y K; split; nra).
  rewrite (cos_asin K HK).
  assert (E : 1 - K² = X * X + y * y) by (unfold Rsqr; lra).
  rewrite E.
  pose proof (sqrt_pos (X * X + y * y)) as Hsq.
  destruct (Rlt_dec 0 (cos (atan2 y X) * sqrt (X * X + y * y))) as [Hpos|Hneg];
    split; intros H; try reflexivity; try discriminate.
  - destruct (Rtotal_order X 0) as [Hx|[Hx|Hx]]; [| |assumption]; exfalso.
    + pose proof (cos_atan2_back y X Hx); nra.
    + destruct (Req_dec y 0) as [Hy|Hy].
      * rewrite Hx, Hy in Hpos.
        replace (0 * 0 + 0 * 0) with 0 in Hpos by ring.
        rewrite sqrt_0 in Hpos; lra.
      * rewrite Hx, (cos_atan2_edge y Hy) in Hpos; lra.
  - elim Hneg; apply Rmult_lt_0_compat; [now apply cos_atan2_front|].
    apply sqrt_lt_R0; clearbody X y; nra.
Qed.

Lemma round_integer x : exists n : Z, round x = IZR n.
Proof. eexists; reflexivity. Qed.

(** Bringing the longitude back into range does not change its cosine. *)
Lemma cos_rotationLambda dl lambda phi :
  cos (fst (rotationLambda dl (lambda, phi))) = cos (lambda + dl) /\
  snd (rotationLambda dl (lambda, phi)) = phi.
Proof.
  unfold rotationLambda; cbn [fst snd]; split; [|reflexivity].
  destruct (Rlt_dec _ _); [|reflexivity].
  destruct (round_integer ((lambda + dl) / tau)) as [n ->].
  replace (lambda + dl - IZR n * tau) with (lambda + dl + 2 * IZR (- n) * PI)
    by (unfold tau; rewrite opp_IZR; ring).
  apply cos_period_Z.
Qed.

(** The component of the rotated direction that points to the viewer is
    the cosine of the angle between the point and the coordinate the
    component takes for the centre of the view. *)
Lemma insideClip_cosAngle p point :
  deltaGamma p = 0 -> cos (theta p) = 0 ->
  (insideClip p point = true <-> 0 < cosAngle point (subRotationPoint p)).
Proof.
  intros Hg Hth; unfold insideClip, rotateRadians; rewrite Hg.
  destruct (cos_rotationLambda (deltaLambda p) (fst point * radians) (snd point * radians))
    as [Hc Hs].
  destruct (rotationLambda _ _) as [lambda' phi'] eqn:E; cbn [fst snd] in Hc, Hs; subst phi'.
  rewrite (clip_after_tilt p lambda' _ Hth), Hc.
  unfold cosAngle, subRotationPoint, rotate_get; cbn [fst snd].
  assert (DR : degrees * radians = 1)
    by (unfold radians, degrees; field; apply PI_neq0).
  replace (- (deltaPhi p * degrees) * radians)
    with (- (deltaPhi p * (degrees * radians))) by ring.
  replace ((- (deltaLambda p * degrees) - fst point) * radians)
    with (- (fst point * radians + deltaLambda p * (degrees * radians))) by ring.
  rewrite DR, !Rmult_1_r, !cos_neg, sin_neg.
  split; intros H; lra.
Qed.

Lemma markerDrawn_iff p now loc :
  markerDrawn p now loc
  <-> geoDistance (Q2R (lng loc), Q2R (lat loc)) (subRotationPoint p) < PI / 2.
Proof.
  unfold markerDrawn, marker, project.
  destruct (Rlt_dec _ _) as [H|H]; split; intros G; try assumption.
  - discriminate.
  - now elim G.
  - contradiction.
Qed.

(** Seen from a point, the coordinate the component computes from the
    stored angles and the negated rotation angles themselves are the same
    direction. *)
Lemma cosAngle_subRotationPoint r q point :
  cosAngle point (subRotationPoint (rotate (r, - 15) q))
  = cosAngle point (- r, - - 15).
Proof.
  unfold subRotationPoint; rewrite rotate_get_rotate; cbn [fst snd].
  rewrite rem_tilt.
  destruct (rem_integer r 360) as [n ->].
  unfold cosAngle; cbn [fst snd].
  replace ((- (r - 360 * IZR n) - fst point) * radians)
    with ((- r - fst point) * radians + 2 * IZR n * PI)
    by (unfold radians; field).
  now rewrite cos_period_Z.
Qed.

Lemma project_in_disk p point :
  exists x y,
    project p point = Some (x, y) /\
    (x - x0 p) * (x - x0 p) + (y - y0 p) * (y - y0 p) <= k p * k p.
Proof.
  unfold project, orthographicRaw; cbn [fst snd].
  destruct (rotateRadians p _) as [lambda phi]; cbn [fst snd].
  eexists; eexists; split; [reflexivity|].
  pose proof (sqr_sin_cos lambda) as Hl; pose proof (sqr_sin_cos phi) as Hp.
  replace (_ + _) with
    (k p * k p * (cos phi * cos phi * (sin lambda * sin lambda) + sin phi * sin phi))
    by ring.
  assert (0 <= k p * k p) by apply Rle_0_sqr.
  assert (0 <= cos phi * cos phi) by apply Rle_0_sqr.
  assert (0 <= cos lambda * cos lambda) by apply Rle_0_sqr.
  assert (cos phi * cos phi * (sin lambda * sin lambda) + sin phi * sin phi <= 1) by nra.
  nra.
Qed.

Lemma theta_projection v q : theta q = theta projection0 -> cos (theta (rotate v q)) = 0.
Proof.
  cbn [rotate theta]; intros ->; cbn.
  replace (90 * radians) with (PI / 2) by (unfold radians; field).
  apply cos_PI2.
Qed.

(** The marker test in exact arithmetic.  With the numbers of the globe read
    as real numbers, for the projection turned by any angle [r] with the
    tilt of -15 degrees, as it is after every refresh of a running loop, a
    marker is drawn for a habitat point exactly when its great-circle
    distance to the negated rotation angles is less than [PI / 2]; this is
    exactly when the point lies inside the 90 degree clip circle of the
    projection; and the marker is centred within the disk of the globe.
    The component computes both tests in double precision, where a point
    within rounding of the rim can fall on either side of either test: of
    such points this lemma says nothing. *)
Lemma marker_test_in_exact_arithmetic r now loc locations clock0 clocks :
  let p := rotate (r, - 15) projection0 in
  let point := (Q2R (lng loc), Q2R (lat loc)) in
  let s := frames locations clocks (start locations clock0) in
  projection s = rotate (rotation s, - 15) projection0 /\
  (markerDrawn p now loc <-> greatCircle point (- r, - - 15) < PI / 2) /\
  (markerDrawn p now loc <-> insideClip p point = true) /\
  (exists x y,
     project p point = Some (x, y) /\
     (x - width / 2) * (x - width / 2) + (y - height / 2) * (y - height / 2)
     <= width / (22 / 10) * (width / (22 / 10))).
Proof.
  intros p point s.
  assert (Hth : cos (theta p) = 0) by (apply theta_projection; reflexivity).
  assert (Hg : deltaGamma p = 0) by reflexivity.
  split; [|split; [|split]].
  - pose proof (frames_running locations clocks _ (start_running locations clock0))
      as (_ & _ & H); exact H.
  - rewrite markerDrawn_iff, geoDistance_acute, greatCircle_acute.
    unfold p; rewrite cosAngle_subRotationPoint; reflexivity.
  - rewrite markerDrawn_iff, geoDistance_acute.
    symmetry; apply insideClip_cosAngle; assumption.
  - exact (project_in_disk p point).
Qed.

End GlobeFacts.

(* ================================================================== *)
(** * Further properties of the service and of the session *)

(** ** services/geminiService.ts *)

Lemma mapi_from_names w data k :
  map commonName
    (mapi_from (fun t index => withId t (treeId (Date_now w index) index)) data k)
  = map j_commonName data.
Proof.
  revert k; induction data as [|t data IH]; intros k; cbn; [reflexivity|].
  now rewrite IH.
Qed.

(** X1.  [fetchNewTrees], the provider answering: the trees come back in the
    order of the answer, one per element, each with an [id] no other tree
    of the pool has, whatever the clock read while they were numbered; the
    component state is not touched. *)
Theorem fetchNewTrees_fresh_ids w d data s :
  treeListResponse w d = Some data ->
  exists trees,
    fetchNewTrees w d s = Returned trees s /\
    NoDup (map id trees) /\
    List.length trees = List.length data /\
    map commonName trees = map j_commonName data.
Proof.
  intros H; exists (assignIds w data); unfold fetchNewTrees; rewrite H.
  split; [reflexivity|]. split; [apply assignIds_NoDup|].
  split; [apply assignIds_length|apply mapi_from_names].
Qed.

Lemma fetchNewTrees_fresh_ids_witness :
  exists trees,
    fetchNewTrees threeWorld MEDIUM initialState = Returned trees initialState /\
    NoDup (map id trees) /\
    List.length trees = List.length threeTrees /\
    map commonName trees = map j_commonName threeTrees.
Proof.
  apply (fetchNewTrees_fresh_ids threeWorld MEDIUM threeTrees initialState).
  reflexivity.
Defined.

Lemma find_first_inline before data after :
  forallb noInline before = true ->
  find (fun p => match inlineData p with Some _ => true | None => false end)
       (before ++ {| inlineData := Some data |} :: after)
  = Some {| inlineData := Some data |}.
Proof.
  induction before as [|[[x|]] before IH]; cbn; intros H; auto; discriminate.
Qed.

Lemma find_no_inline parts :
  forallb noInline parts = true ->
  find (fun p => match inlineData p with Some _ => true | None => false end) parts
  = None.
Proof.
  induction parts as [|[[x|]] parts IH]; cbn; intros H; auto; discriminate.
Qed.

(** X2.  [generateTreeImage], the answer holding an image: the first part with
    inline data wins, later parts are not looked at; the result is its
    payload behind the PNG data-URL prefix, hence never an empty (falsy)
    string; the component state is not touched. *)
Theorem generateTreeImage_first_inline w description season before data after s :
  imageResponse w description season
  = Some (before ++ {| inlineData := Some data |} :: after) ->
  forallb noInline before = true ->
  generateTreeImage w description season s
  = Returned ("data:image/png;base64," ++ data)%string s /\
  forall fallback,
    or_else (Some ("data:image/png;base64," ++ data)%string) fallback
    = ("data:image/png;base64," ++ data)%string.
Proof.
  intros H Hb; unfold generateTreeImage; rewrite H, (find_first_inline _ _ _ Hb).
  split; reflexivity.
Qed.

Lemma generateTreeImage_first_inline_witness :
  generateTreeImage
    (stillWorld None (fun _ => Some [ {| inlineData := None |};
                                      {| inlineData := Some "AAAA" |};
                                      {| inlineData := Some "BBBB" |} ]))
    "an oak" spring initialState
  = Returned ("data:image/png;base64," ++ "AAAA")%string initialState /\
  forall fallback,
    or_else (Some ("data:image/png;base64," ++ "AAAA")%string) fallback
    = ("data:image/png;base64," ++ "AAAA")%string.
Proof.
  apply (generateTreeImage_first_inline _ "an oak" spring
           [ {| inlineData := None |} ] "AAAA" [ {| inlineData := Some "BBBB" |} ]);
    reflexivity.
Defined.

(** X3.  [generateTreeImage], the answer holding no image (no part at all, or
    only parts without inline data): it throws, and the component state is
    not touched. *)
Theorem generateTreeImage_no_inline w description season parts s :
  imageResponse w description season = Some parts ->
  forallb noInline parts = true ->
  generateTreeImage w description season s
  = Thrown (ProviderError "No image data returned from Gemini") s /\
  imageOf w description season = None.
Proof.
  intros H Hb; unfold imageOf, generateTreeImage; rewrite H, (find_no_inline _ Hb).
  split; reflexivity.
Qed.

Lemma generateTreeImage_no_inline_witness :
  generateTreeImage (stillWorld None (fun _ => Some [])) "an oak" autumn initialState
  = Thrown (ProviderError "No image data returned from Gemini") initialState /\
  imageOf (stillWorld None (fun _ => Some [])) "an oak" autumn = None.
Proof.
  apply (generateTreeImage_no_inline _ "an oak" autumn []); reflexivity.
Defined.

(** ** App.tsx: the handlers one by one *)

Lemma handleGuess_cases w choice s :
  (currentRound s = None /\ handleGuess w choice s = Returned tt s) \/
  (exists round s',
     currentRound s = Some round /\
     handleGuess w choice s = Returned tt s' /\
     status s' = RESULT /\
     selectedOption s' = Some choice /\
     isCorrect s' = Some (String.eqb choice (commonName (targetTree round))) /\
     pool s' = pool s /\ difficulty s' = difficulty s /\
     isFactLoading s' = isFactLoading s /\
     exists round',
       currentRound s' = Some round' /\
       targetTree round' = targetTree round /\
       options round' = options round /\
       autumnImageUrl round' = autumnImageUrl round /\
       (springImageUrl round' = springImageUrl round \/
        String.eqb choice (commonName (targetTree round)) = true)).
Proof.
  destruct (currentRound s) as [round|] eqn:Hr.
  - right; exists round.
    destruct (String.eqb choice (commonName (targetTree round))) eqn:Hc.
    + eexists; split; [reflexivity|].
      split; [apply (handleGuess_correct _ _ _ _ Hr Hc)|].
      cbn; repeat split. eexists; repeat split; auto.
    + eexists; split; [reflexivity|].
      split; [apply (handleGuess_incorrect _ _ _ _ Hr Hc)|].
      cbn; repeat split. exists round; repeat split; auto.
  - left; split; [reflexivity|now apply handleGuess_no_round].
Qed.

Lemma initGame_cases w d s :
  exists s', initGame w d s = Returned tt s' /\
             (status s' = GUESSING \/ status s' = ERROR).
Proof.
  rewrite initGame_unfold; destruct (treeListResponse w d) as [data|].
  - match goal with |- context [startRound w ?t ?p ?s0] =>
      destruct (startRound_cases w t p s0) as [(t' & img & _ & _ & ->)| ->] end;
      eexists; split; try reflexivity; cbn; auto.
  - eexists; split; [reflexivity|cbn; auto].
Qed.

Lemma nextRound_cases w s :
  exists s', nextRound w s = Returned tt s' /\
             (status s' = GUESSING \/ status s' = ERROR \/ s' = s).
Proof.
  unfold nextRound, bind, get.
  destruct (nextIdx s <? _)%Z.
  - destruct (startRound_cases w (at_index (pool s) (nextIdx s)) (pool s) s)
      as [(t' & img & _ & _ & ->)| ->]; eexists; split; try reflexivity; cbn; auto.
  - destruct (difficulty s) as [d|].
    + destruct (initGame_cases w d s) as (s' & -> & [H|H]); eauto.
    + eexists; split; [reflexivity|auto].
Qed.

Lemma handleRegenerateFact_request_cases s :
  exists s', (handleRegenerateFact_request ;; ret tt) s = Returned tt s' /\
             status s' = status s /\ currentRound s' = currentRound s /\
             pool s' = pool s /\ score s' = score s /\
             difficulty s' = difficulty s /\
             selectedOption s' = selectedOption s /\ isCorrect s' = isCorrect s.
Proof.
  unfold handleRegenerateFact_request, bind, get.
  destruct (currentRound s) eqn:Hr; [destruct (isFactLoading s)|];
    eexists; (split; [reflexivity|]); cbn; repeat split; auto.
Qed.

Lemma handleRegenerateFact_settle_cases w names s :
  exists s',
    handleRegenerateFact_settle w names s = Returned tt s' /\
    status s' = status s /\ pool s' = pool s /\ score s' = score s /\
    difficulty s' = difficulty s /\
    selectedOption s' = selectedOption s /\ isCorrect s' = isCorrect s /\
    isFactLoading s' = false /\
    currentRound s' =
      match funFactResponse w (fst names) (snd names), currentRound s with
      | Some text, Some p => Some (withFunFact (trim text) p)
      | _, r => r
      end.
Proof.
  unfold handleRegenerateFact_settle, try_finally, try_catch, bind, fetchNewFunFact.
  destruct (funFactResponse w (fst names) (snd names)) as [text|];
    eexists; (split; [reflexivity|]); cbn; repeat split;
    destruct (currentRound s); reflexivity.
Qed.

(** X4.  No handler lets an exception out: whatever the event, the world and
    the state, the handler the event runs returns.  The rejected requests
    and the [undefined] target are all caught inside. *)
Theorem dispatch_never_throws w ev s :
  dispatch w ev s = Returned tt (step s (w, ev)).
Proof.
  unfold step; cbn [fst snd]; unfold dispatch.
  destruct ev as [d|choice| | |names|].
  - destruct (GameStatus_eqb _ _); [|reflexivity].
    destruct (initGame_cases w d s) as (s' & -> & _); reflexivity.
  - destruct (optionEnabled s choice); [|reflexivity].
    destruct (handleGuess_cases w choice s) as [[_ ->]|(r & s' & _ & -> & _)];
      reflexivity.
  - destruct (nextRendered s); [|reflexivity].
    destruct (nextRound_cases w s) as (s' & -> & _); reflexivity.
  - destruct (newFactEnabled s); [|reflexivity].
    destruct (handleRegenerateFact_request_cases s) as (s' & -> & _); reflexivity.
  - destruct (isFactLoading s); [|reflexivity].
    destruct (handleRegenerateFact_settle_cases w names s) as (s' & -> & _);
      reflexivity.
  - destruct (returnControlRendered s); reflexivity.
Qed.

(** ** App.tsx: starting a trail *)

(** X5.  [initGame], the provider rejecting the request: the session ends in
    [ERROR] with the chosen difficulty recorded; the pool, the round and the
    score of the trail before are still there. *)
Theorem initGame_rejected w d s :
  treeListResponse w d = None ->
  exists s',
    initGame w d s = Returned tt s' /\
    status s' = ERROR /\ difficulty s' = Some d /\
    pool s' = pool s /\ currentRound s' = currentRound s /\ score s' = score s.
Proof.
  intros H; rewrite initGame_unfold, H; eexists; split; [reflexivity|].
  cbn; repeat split.
Qed.

Lemma initGame_rejected_witness :
  exists s',
    initGame rejectingWorld HARD (run initialState oneCorrectGuess) = Returned tt s' /\
    status s' = ERROR /\ difficulty s' = Some HARD /\
    pool s' = pool (run initialState oneCorrectGuess) /\
    currentRound s' = currentRound (run initialState oneCorrectGuess) /\
    score s' = score (run initialState oneCorrectGuess).
Proof.
  apply (initGame_rejected rejectingWorld HARD (run initialState oneCorrectGuess)).
  reflexivity.
Defined.

(** X6.  [initGame], the provider answering with an empty list: [trees[0]] is
    [undefined], reading its description throws inside [startRound], and the
    session ends in [ERROR]; by then the pool of the trail before has been
    replaced by the empty one, while its round stays. *)
Theorem initGame_empty_pool w d s :
  treeListResponse w d = Some [] ->
  exists s',
    initGame w d s = Returned tt s' /\
    status s' = ERROR /\ difficulty s' = Some d /\
    pool s' = [] /\ currentRound s' = currentRound s /\ score s' = score s.
Proof.
  intros H; rewrite initGame_unfold, H.
  rewrite (startRound_failure w None); [|exact I].
  eexists; split; [reflexivity|]; cbn; repeat split.
Qed.

Lemma initGame_empty_pool_witness :
  exists s',
    initGame emptyWorld EASY (run initialState oneCorrectGuess) = Returned tt s' /\
    status s' = ERROR /\ difficulty s' = Some EASY /\
    pool s' = [] /\
    currentRound s' = currentRound (run initialState oneCorrectGuess) /\
    score s' = score (run initialState oneCorrectGuess).
Proof.
  apply (initGame_empty_pool emptyWorld EASY (run initialState oneCorrectGuess)).
  reflexivity.
Defined.

(** X7.  [initGame], the provider answering with trees and the "before" image
    of the first one arriving: the session is in [GUESSING] on the first
    tree of the answer, with the whole answer as pool, nothing recorded, and
    the score it had. *)
Theorem initGame_first_round w d data first rest img s :
  treeListResponse w d = Some data ->
  assignIds w data = first :: rest ->
  imageOf w (autumnDescription first) autumn = Some img ->
  exists s' round,
    initGame w d s = Returned tt s' /\
    status s' = GUESSING /\ difficulty s' = Some d /\
    pool s' = first :: rest /\
    currentRound s' = Some round /\
    targetTree round = first /\
    autumnImageUrl round = img /\ springImageUrl round = None /\
    selectedOption s' = None /\ isCorrect s' = None /\
    score s' = score s.
Proof.
  intros H E Himg; rewrite initGame_unfold, H, E.
  change (at_index (first :: rest) 0) with (Some first).
  rewrite (startRound_success _ _ _ _ _ Himg).
  eexists; eexists; split; [reflexivity|]; cbn; repeat split.
Qed.

Lemma initGame_first_round_witness :
  exists s' round,
    initGame threeWorld EASY initialState = Returned tt s' /\
    status s' = GUESSING /\ difficulty s' = Some EASY /\
    pool s' = treeAt threeWorld threeTrees 0
              :: [treeAt threeWorld threeTrees 1; treeAt threeWorld threeTrees 2] /\
    currentRound s' = Some round /\
    targetTree round = treeAt threeWorld threeTrees 0 /\
    autumnImageUrl round = "data:image/png;base64,iVBOR" /\
    springImageUrl round = None /\
    selectedOption s' = None /\ isCorrect s' = None /\
    score s' = score initialState.
Proof.
  apply (initGame_first_round threeWorld EASY threeTrees
           (treeAt threeWorld threeTrees 0)
           [treeAt threeWorld threeTrees 1; treeAt threeWorld threeTrees 2]
           "data:image/png;base64,iVBOR" initialState); reflexivity.
Defined.

(** ** App.tsx: guessing *)

(** X8.  A wrong guess asks nothing of the outside world: whatever the provider
    would have answered, [handleGuess] ends in the same state, which is
    [RESULT] with the "before" image on display, the round and the score
    untouched. *)
Theorem handleGuess_wrong_is_local w w' choice s round :
  currentRound s = Some round ->
  String.eqb choice (commonName (targetTree round)) = false ->
  exists s',
    handleGuess w choice s = Returned tt s' /\
    handleGuess w' choice s = Returned tt s' /\
    status s' = RESULT /\
    currentRound s' = Some round /\
    score s' = score s /\
    loadingStep s' = loadingStep s /\
    displayedImage s' round = autumnImageUrl round.
Proof.
  intros Hr Hc; eexists.
  split; [apply (handleGuess_incorrect _ _ _ _ Hr Hc)|].
  split; [apply (handleGuess_incorrect _ _ _ _ Hr Hc)|].
  cbn; repeat split.
Qed.

Lemma handleGuess_wrong_is_local_witness :
  exists s',
    handleGuess threeWorld "Silver Birch" firstRoundOpen = Returned tt s' /\
    handleGuess noImageWorld "Silver Birch" firstRoundOpen = Returned tt s' /\
    status s' = RESULT /\
    currentRound s' = Some firstRound /\
    score s' = score firstRoundOpen /\
    loadingStep s' = loadingStep firstRoundOpen /\
    displayedImage s' firstRound = autumnImageUrl firstRound.
Proof.
  apply (handleGuess_wrong_is_local threeWorld noImageWorld "Silver Birch"
           firstRoundOpen firstRound); reflexivity.
Defined.

Lemma imageOf_truthy w description season img fallback :
  imageOf w description season = Some img -> or_else (Some img) fallback = img.
Proof.
  unfold imageOf, generateTreeImage.
  destruct (imageResponse w description season) as [parts|]; [|discriminate].
  destruct (find _ parts) as [[[data|]]|]; try discriminate.
  intros [= <-]; reflexivity.
Qed.

(** X9.  A right guess whose "after" image arrives: the session is in [RESULT],
    the round holds that image, and it is the image on display (a data URL
    is never the empty string that [||] would skip). *)
Theorem handleGuess_reveals_after_image w choice s round img :
  currentRound s = Some round ->
  choice = commonName (targetTree round) ->
  imageOf w (springDescription (targetTree round)) spring = Some img ->
  exists s' round',
    handleGuess w choice s = Returned tt s' /\
    status s' = RESULT /\
    currentRound s' = Some round' /\
    springImageUrl round' = Some img /\
    autumnImageUrl round' = autumnImageUrl round /\
    targetTree round' = targetTree round /\
    displayedImage s' round' = img.
Proof.
  intros Hr -> Himg.
  pose proof (String.eqb_refl (commonName (targetTree round))) as Hc.
  eexists; eexists; split; [apply (handleGuess_correct _ _ _ _ Hr Hc)|].
  rewrite Himg; cbn; repeat split.
  eapply imageOf_truthy; eassumption.
Qed.

Lemma handleGuess_reveals_after_image_witness :
  exists s' round',
    handleGuess threeWorld "Sugar Maple" firstRoundOpen = Returned tt s' /\
    status s' = RESULT /\
    currentRound s' = Some round' /\
    springImageUrl round' = Some "data:image/png;base64,iVBOR" /\
    autumnImageUrl round' = autumnImageUrl firstRound /\
    targetTree round' = targetTree firstRound /\
    displayedImage s' round' = "data:image/png;base64,iVBOR".
Proof.
  apply (handleGuess_reveals_after_image threeWorld "Sugar Maple" firstRoundOpen
           firstRound "data:image/png;base64,iVBOR"); reflexivity.
Defined.

(** ** App.tsx: the shape of a session *)

Lemma shape_startRound w target currentPool s :
  sessionShape (finalState (startRound w target currentPool s)).
Proof.
  destruct (startRound_cases w target currentPool s)
    as [(t & img & _ & _ & ->)| ->]; cbn [finalState]; unfold sessionShape, settled.
  - split; [cbn; auto|]. split; [|cbn; discriminate].
    intros _; repeat split; eexists; split; reflexivity.
  - split; [cbn; auto|]. split; cbn; discriminate.
Qed.

Lemma shape_initGame w d s : sessionShape (finalState (initGame w d s)).
Proof.
  rewrite initGame_unfold; destruct (treeListResponse w d); [apply shape_startRound|].
  unfold sessionShape, settled; cbn; split; [auto|split; discriminate].
Qed.

Lemma shape_same s s' :
  status s' = status s -> currentRound s' = currentRound s ->
  selectedOption s' = selectedOption s -> isCorrect s' = isCorrect s ->
  sessionShape s -> sessionShape s'.
Proof.
  unfold sessionShape, settled, roundOpen, roundDecided.
  intros -> -> -> ->; auto.
Qed.

Lemma shape_step s we : sessionShape s -> sessionShape (step s we).
Proof.
  intros Hs; destruct we as [w ev]; unfold step, dispatch; cbn [fst snd].
  destruct ev as [d|choice| | |names|].
  - destruct (GameStatus_eqb _ _); [apply shape_initGame|exact Hs].
  - destruct (optionEnabled s choice) eqn:En; [|exact Hs].
    unfold optionEnabled, mainScreen in En.
    destruct (returnControlRendered s); [|discriminate].
    destruct (currentRound s) as [round0|] eqn:Hr0; [|discriminate].
    destruct (status s) eqn:Hst; try discriminate.
    destruct Hs as (_ & Hopen & _).
    destruct (Hopen Hst) as (_ & _ & round1 & Hr1 & Hsp).
    rewrite Hr0 in Hr1; injection Hr1 as <-.
    destruct (handleGuess_cases w choice s)
      as [[Hn _]|(round & s' & Hr & -> & Hst' & Hsel & Hic & _ & _ & _ &
                  round' & Hr' & Ht & _ & _ & Hspring)];
      [rewrite Hr0 in Hn; discriminate|].
    rewrite Hr0 in Hr; injection Hr as <-.
    cbn [finalState]; unfold sessionShape, settled.
    split; [auto|]. split; [rewrite Hst'; discriminate|].
    intros _; exists round', choice; rewrite Ht.
    repeat split; auto.
    intros Hne; rewrite Hic; destruct Hspring as [E|E]; [|now rewrite E].
    elim Hne; now rewrite E.
  - destruct (nextRendered s); [|exact Hs].
    unfold nextRound, bind, get.
    destruct (nextIdx s <? _)%Z; [apply shape_startRound|].
    destruct (difficulty s); [apply shape_initGame|exact Hs].
  - destruct (newFactEnabled s); [|exact Hs].
    destruct (handleRegenerateFact_request_cases s)
      as (s' & -> & H1 & H2 & _ & _ & _ & H3 & H4).
    now apply (shape_same s).
  - destruct (isFactLoading s); [|exact Hs].
    destruct (handleRegenerateFact_settle_cases w names s)
      as (s' & -> & H1 & _ & _ & _ & H3 & H4 & _ & H5).
    cbn [finalState].
    destruct (funFactResponse w (fst names) (snd names)) as [text|];
      [|now apply (shape_same s)].
    destruct (currentRound s) as [p|] eqn:Hp;
      [|apply (shape_same s); auto; now rewrite Hp].
    destruct Hs as (Hset & Hopen & Hdec); unfold sessionShape, settled.
    rewrite H1; split; [exact Hset|]. split.
    + intros G; destruct (Hopen G) as (A & B & round & Hr & Hsp).
      try rewrite Hp in Hr; injection Hr as <-.
      unfold roundOpen; rewrite H3, H4, H5; repeat split; auto.
      eexists; split; [reflexivity|exact Hsp].
    + intros G; destruct (Hdec G) as (round & c & Hr & A & B & C).
      try rewrite Hp in Hr; injection Hr as <-.
      exists (withFunFact (trim text) p), c; rewrite H3, H4, H5.
      repeat split; auto.
  - destruct (returnControlRendered s); [|exact Hs].
    unfold sessionShape, settled; cbn; split; [auto|split; discriminate].
Qed.

Lemma shape_run trace : sessionShape (run initialState trace).
Proof.
  assert (G : forall s, sessionShape s -> sessionShape (run s trace)).
  { induction trace as [|we trace IH]; intros s H; cbn; auto.
    apply IH, shape_step, H. }
  apply G; unfold sessionShape, settled; cbn; split; [auto|split; discriminate].
Qed.

(** X11.  In every [GUESSING] state of a session the round is open: no choice and
    no verdict is recorded, the "after" image is not there, and each label
    the round offers is a button the player can press. *)
Theorem guessing_round_is_open trace :
  status (run initialState trace) = GUESSING ->
  roundOpen (run initialState trace) /\
  exists round,
    currentRound (run initialState trace) = Some round /\
    forall choice,
      optionEnabled (run initialState trace) choice
      = existsb (String.eqb choice) (options round).
Proof.
  intros G; destruct (shape_run trace) as (_ & Hopen & _).
  pose proof (Hopen G) as Ho; split; [exact Ho|].
  destruct Ho as (Hsel & _ & round & Hr & _).
  exists round; split; [exact Hr|]; intros choice.
  unfold optionEnabled, mainScreen, returnControlRendered.
  rewrite G, Hr, Hsel; cbn. now rewrite andb_true_r.
Qed.

Lemma guessing_round_is_open_witness :
  roundOpen (run initialState [(threeWorld, selectDifficulty EASY)]) /\
  exists round,
    currentRound (run initialState [(threeWorld, selectDifficulty EASY)]) = Some round /\
    forall choice,
      optionEnabled (run initialState [(threeWorld, selectDifficulty EASY)]) choice
      = existsb (String.eqb choice) (options round).
Proof.
  apply (guessing_round_is_open [(threeWorld, selectDifficulty EASY)]).
  reflexivity.
Defined.

(** X12.  In every [RESULT] state of a session a choice is recorded, the verdict
    [isCorrect] is exactly whether that choice is the common name of the
    target, and the round holds an "after" image only if the verdict is
    "correct". *)
Theorem result_verdict_matches_choice trace :
  status (run initialState trace) = RESULT ->
  roundDecided (run initialState trace).
Proof.
  intros G; destruct (shape_run trace) as (_ & _ & Hdec); auto.
Qed.

Lemma result_verdict_matches_choice_witness :
  roundDecided (run initialState oneCorrectGuess).
Proof.
  apply (result_verdict_matches_choice oneCorrectGuess); reflexivity.
Defined.

(** ** App.tsx: the labels of the rounds of a session *)

Lemma optionsOf_from_pool w target currentPool o :
  sortPermutes w -> In target currentPool ->
  In o (optionsOf w target currentPool) ->
  exists t, In t currentPool /\ commonName t = o.
Proof.
  intros [Ht Hl] Hin Ho; unfold optionsOf, distractorsOf, slice0 in Ho.
  eapply Permutation_in in Ho; [|apply Hl].
  destruct Ho as [<-|Ho]; [eauto|].
  apply in_map_iff in Ho; destruct Ho as (t & <- & Hin').
  apply In_firstn in Hin'.
  eapply Permutation_in in Hin'; [|apply Ht].
  apply filter_In in Hin'; exists t; tauto.
Qed.

Lemma labels_roundStarted w t img s :
  sortPermutes w -> NoDup (map id (pool s)) -> In t (pool s) ->
  labelsFromPool (roundStarted w t (pool s) img s).
Proof.
  intros Hw ND Hin; eexists; split; [reflexivity|]; cbn.
  split; [now apply optionsOf_target|].
  split; [intros o; now apply optionsOf_from_pool|].
  now apply optionsOf_length.
Qed.

Lemma labels_startRound w target s :
  sortPermutes w -> NoDup (map id (pool s)) ->
  (forall t, target = Some t -> In t (pool s)) ->
  labelsInPlay (finalState (startRound w target (pool s) s)).
Proof.
  intros Hw ND Hin.
  destruct (startRound_cases w target (pool s) s)
    as [(t & img & E & _ & ->)| ->]; cbn [finalState]; intros Hp.
  - apply labels_roundStarted; auto.
  - destruct Hp as [Hp|Hp]; discriminate.
Qed.

Lemma labels_initGame w d s :
  sortPermutes w -> labelsInPlay (finalState (initGame w d s)).
Proof.
  intros Hw; rewrite initGame_unfold.
  destruct (treeListResponse w d) as [data|].
  - set (s1 := withPool (assignIds w data) (trailLoading d s)).
    change (assignIds w data) with (pool s1) at 1 2.
    apply labels_startRound; auto.
    + apply assignIds_NoDup.
    + intros t Ht; now apply at_index_In in Ht.
  - intros [Hp|Hp]; discriminate.
Qed.

Lemma labels_same s s' :
  status s' = status s -> pool s' = pool s ->
  (forall p, currentRound s = Some p ->
             exists p', currentRound s' = Some p' /\
                        commonName (targetTree p') = commonName (targetTree p) /\
                        options p' = options p) ->
  inPlay s -> labelsInPlay s -> labelsInPlay s'.
Proof.
  intros Hst Hpool Hround Hplay Hl _.
  destruct (Hl Hplay) as (p & Hr & A & B & C).
  destruct (Hround p Hr) as (p' & Hr' & Hn & Ho).
  exists p'; rewrite Hn, Ho, Hpool; auto.
Qed.

Lemma labels_step s we :
  sortPermutes (fst we) -> wellFormed s -> labelsInPlay s -> labelsInPlay (step s we).
Proof.
  intros Hw [ND Hwf] Hl; destruct we as [w ev]; cbn [fst] in Hw.
  unfold step, dispatch; cbn [fst snd].
  destruct ev as [d|choice| | |names|].
  - destruct (GameStatus_eqb _ _); [now apply labels_initGame|exact Hl].
  - destruct (optionEnabled s choice) eqn:En; [|exact Hl].
    assert (Hplay : inPlay s).
    { unfold optionEnabled, mainScreen in En.
      destruct (returnControlRendered s); [|discriminate].
      destruct (currentRound s); [|discriminate].
      destruct (status s) eqn:Hst; try discriminate; now left. }
    destruct (handleGuess_cases w choice s)
      as [[_ ->]|(round & s' & Hr & -> & Hst' & _ & _ & Hpool & _ & _ &
                  round' & Hr' & Ht & Ho & _)]; [exact Hl|].
    cbn [finalState]; intros _.
    destruct (Hl Hplay) as (p & Hp & A & B & C).
    rewrite Hr in Hp; injection Hp as <-.
    exists round'; rewrite Ht, Ho, Hpool; auto.
  - destruct (nextRendered s); [|exact Hl].
    unfold nextRound, bind, get.
    destruct (nextIdx s <? _)%Z.
    + apply labels_startRound; auto.
      intros t Ht; now apply at_index_In in Ht.
    + destruct (difficulty s); [now apply labels_initGame|exact Hl].
  - destruct (newFactEnabled s); [|exact Hl].
    destruct (handleRegenerateFact_request_cases s)
      as (s' & -> & H1 & H2 & H3 & _).
    cbn [finalState]; intros Hp.
    assert (Hplay : inPlay s) by (unfold inPlay in *; now rewrite <- H1).
    assert (Hround : forall p, currentRound s = Some p ->
              exists p', currentRound s' = Some p' /\
                         commonName (targetTree p') = commonName (targetTree p) /\
                         options p' = options p)
      by (intros p Hr; exists p; rewrite H2; auto).
    exact (labels_same s s' H1 H3 Hround Hplay Hl Hp).
  - destruct (isFactLoading s); [|exact Hl].
    destruct (handleRegenerateFact_settle_cases w names s)
      as (s' & -> & H1 & H2 & _ & _ & _ & _ & _ & H5).
    cbn [finalState]; intros Hp.
    assert (Hplay : inPlay s) by (unfold inPlay in *; now rewrite <- H1).
    assert (Hround : forall p, currentRound s = Some p ->
              exists p', currentRound s' = Some p' /\
                         commonName (targetTree p') = commonName (targetTree p) /\
                         options p' = options p).
    { intros p Hr; rewrite H5, Hr.
      destruct (funFactResponse w (fst names) (snd names));
        eexists; split; try reflexivity; auto. }
    exact (labels_same s s' H1 H2 Hround Hplay Hl Hp).
  - destruct (returnControlRendered s); [|exact Hl].
    intros [Hp|Hp]; discriminate.
Qed.

Lemma labels_run s trace :
  sortsPermute trace -> wellFormed s -> labelsInPlay s ->
  labelsInPlay (run s trace).
Proof.
  revert s; induction trace as [|we trace IH]; intros s Hall Hwf Hl; cbn; auto.
  inversion Hall; subst.
  apply IH; auto using wellFormed_step, labels_step.
Qed.

(** X13.  Every round of a session can be won.  In every [GUESSING] state the
    common name of the target is among the labels offered and its button is
    enabled; every label offered is the common name of a specimen of the
    pool; and there are [min n 3] labels for a pool of [n]. *)
Theorem every_round_is_winnable trace :
  sortsPermute trace ->
  status (run initialState trace) = GUESSING ->
  labelsFromPool (run initialState trace) /\
  exists round,
    currentRound (run initialState trace) = Some round /\
    optionEnabled (run initialState trace) (commonName (targetTree round)) = true /\
    isCorrectChoice (run initialState trace) (commonName (targetTree round)) = true.
Proof.
  intros Hall G.
  assert (L : labelsFromPool (run initialState trace)).
  { apply labels_run; auto; [|intros [H|H]; discriminate|now left].
    split; cbn; [constructor|intros [H|H]; discriminate]. }
  split; [exact L|].
  destruct L as (round & Hr & Hin & _).
  destruct (shape_run trace) as (_ & Hopen & _).
  destruct (Hopen G) as (Hsel & _).
  exists round; split; [exact Hr|]. split.
  - unfold optionEnabled, mainScreen, returnControlRendered.
    rewrite G, Hr, Hsel; cbn; rewrite andb_true_r.
    apply existsb_exists; eexists; split; [exact Hin|apply String.eqb_refl].
  - unfold isCorrectChoice; rewrite Hr; apply String.eqb_refl.
Qed.

Lemma every_round_is_winnable_witness :
  labelsFromPool (run initialState [(threeWorld, selectDifficulty EASY)]) /\
  exists round,
    currentRound (run initialState [(threeWorld, selectDifficulty EASY)]) = Some round /\
    optionEnabled (run initialState [(threeWorld, selectDifficulty EASY)])
      (commonName (targetTree round)) = true /\
    isCorrectChoice (run initialState [(threeWorld, selectDifficulty EASY)])
      (commonName (targetTree round)) = true.
Proof.
  apply (every_round_is_winnable [(threeWorld, selectDifficulty EASY)]).
  - repeat constructor; apply stillWorld_sortPermutes.
  - reflexivity.
Defined.

(** ** App.tsx: the error screen *)

(** X14.  In [ERROR] the only control that acts is the return to the trailhead:
    a trail button, an option, "next" and "new fact" are not on the screen
    and leave the state as it is, a fun fact that settles leaves the status
    and the score alone, and the return control leads to
    [DIFFICULTY_SELECTION]. *)
Theorem error_only_exit_is_return w s d choice names :
  status s = ERROR ->
  step s (w, selectDifficulty d) = s /\
  step s (w, selectOption choice) = s /\
  step s (w, advance) = s /\
  step s (w, regenerateFact) = s /\
  status (step s (w, factSettles names)) = ERROR /\
  score (step s (w, factSettles names)) = score s /\
  status (step s (w, returnToSelection)) = DIFFICULTY_SELECTION.
Proof.
  intros H; unfold step, dispatch; cbn [fst snd].
  unfold optionEnabled, nextRendered, newFactEnabled, mainScreen,
    returnControlRendered; rewrite H; cbn.
  repeat split.
  - destruct (currentRound s); reflexivity.
  - destruct (currentRound s); reflexivity.
  - destruct (currentRound s); reflexivity.
  - destruct (isFactLoading s); [|exact H].
    destruct (handleRegenerateFact_settle_cases w names s) as (s' & -> & H1 & _).
    cbn; congruence.
  - destruct (isFactLoading s); [|reflexivity].
    destruct (handleRegenerateFact_settle_cases w names s) as (s' & -> & _ & _ & H3 & _).
    exact H3.
Qed.

Lemma error_only_exit_is_return_witness :
  step (step initialState (rejectingWorld, selectDifficulty EASY))
       (threeWorld, selectDifficulty HARD)
  = step initialState (rejectingWorld, selectDifficulty EASY) /\
  step (step initialState (rejectingWorld, selectDifficulty EASY))
       (threeWorld, selectOption "Sugar Maple")
  = step initialState (rejectingWorld, selectDifficulty EASY) /\
  step (step initialState (rejectingWorld, selectDifficulty EASY)) (threeWorld, advance)
  = step initialState (rejectingWorld, selectDifficulty EASY) /\
  step (step initialState (rejectingWorld, selectDifficulty EASY))
       (threeWorld, regenerateFact)
  = step initialState (rejectingWorld, selectDifficulty EASY) /\
  status (step (step initialState (rejectingWorld, selectDifficulty EASY))
               (threeWorld, factSettles (EmptyString, EmptyString))) = ERROR /\
  score (step (step initialState (rejectingWorld, selectDifficulty EASY))
              (threeWorld, factSettles (EmptyString, EmptyString)))
  = score (step initialState (rejectingWorld, selectDifficulty EASY)) /\
  status (step (step initialState (rejectingWorld, selectDifficulty EASY))
               (threeWorld, returnToSelection)) = DIFFICULTY_SELECTION.
Proof.
  apply (error_only_exit_is_return threeWorld
           (step initialState (rejectingWorld, selectDifficulty EASY))
           HARD "Sugar Maple" (EmptyString, EmptyString)).
  reflexivity.
Defined.

(** ** App.tsx: the score over a session *)

Lemma correct_guesses_are_guesses s trace :
  correctGuessesIn s trace <= guessesIn s trace.
Proof.
  revert s; induction trace as [|we trace IH]; intros s; cbn; [lia|].
  specialize (IH (step s we)).
  destruct (snd we); cbn; try lia.
  destruct (optionEnabled s choice); cbn; [destruct (isCorrectChoice s choice)|]; lia.
Qed.

(** X15.  Over any sequence of events the score never goes down, and it goes up
    by no more than the number of guesses the interface accepted. *)
Theorem score_monotone_and_bounded s trace :
  score s <= score (run s trace) <= score s + guessesIn s trace.
Proof.
  rewrite run_score; pose proof (correct_guesses_are_guesses s trace); lia.
Qed.

(** ** App.tsx: advancing *)

Lemma findIndex_from_bounds {A} (p : A -> bool) l k :
  findIndex_from p l k = (-1)%Z \/
  (k <= findIndex_from p l k < k + Z.of_nat (List.length l))%Z.
Proof.
  revert k; induction l as [|x l IH]; intros k; cbn [findIndex_from List.length].
  - now left.
  - destruct (p x); [right; lia|].
    destruct (IH (k + 1)%Z) as [->|H]; [now left|right; lia].
Qed.

(** X16.  The index [nextRound] computes is between 0 and the length of the
    pool, whatever the state; so when it is used to index the pool (it is
    less than the length) it names a specimen of the pool: [nextRound] never
    hands [startRound] an [undefined] target. *)
Theorem nextRound_index_in_range s :
  (0 <= nextIdx s <= Z.of_nat (List.length (pool s)))%Z /\
  match at_index (pool s) (nextIdx s) with
  | Some t => In t (pool s)
  | None => nextIdx s = Z.of_nat (List.length (pool s))
  end.
Proof.
  assert (B : (0 <= nextIdx s <= Z.of_nat (List.length (pool s)))%Z).
  { unfold nextIdx, findIndex.
    match goal with |- context [findIndex_from ?p ?l 0%Z] =>
      destruct (findIndex_from_bounds p l 0%Z) as [->|H] end; lia. }
  split; [exact B|].
  destruct (at_index (pool s) (nextIdx s)) as [t|] eqn:E.
  - now apply at_index_In in E.
  - unfold at_index in E.
    destruct (Z.ltb_spec (nextIdx s) 0); [lia|].
    apply nth_error_None in E; lia.
Qed.

(** ** App.tsx: the fun fact *)

Lemma startRound_factLoading w target currentPool s :
  isFactLoading (finalState (startRound w target currentPool s)) = isFactLoading s.
Proof.
  destruct (startRound_cases w target currentPool s)
    as [(t & img & _ & _ & ->)| ->]; reflexivity.
Qed.

Lemma initGame_factLoading w d s :
  isFactLoading (finalState (initGame w d s)) = isFactLoading s.
Proof.
  rewrite initGame_unfold; destruct (treeListResponse w d); [|reflexivity].
  now rewrite startRound_factLoading.
Qed.

Lemma factLoading_stays s we :
  notSettling we = true -> isFactLoading s = true ->
  isFactLoading (step s we) = true /\ acceptedFactRequest s (snd we) = false.
Proof.
  destruct we as [w ev]; unfold notSettling, step, dispatch; cbn [fst snd].
  intros Hev Hf.
  destruct ev as [d|choice| | |names|]; try discriminate; cbn [acceptedFactRequest].
  - split; [|reflexivity].
    destruct (GameStatus_eqb _ _); [now rewrite initGame_factLoading|exact Hf].
  - split; [|reflexivity].
    destruct (optionEnabled s choice); [|exact Hf].
    destruct (handleGuess_cases w choice s)
      as [[_ ->]|(round & s' & _ & -> & _ & _ & _ & _ & _ & H & _)];
      [exact Hf|cbn; congruence].
  - split; [|reflexivity].
    destruct (nextRendered s); [|exact Hf].
    unfold nextRound, bind, get.
    destruct (nextIdx s <? _)%Z; [now rewrite startRound_factLoading|].
    destruct (difficulty s); [now rewrite initGame_factLoading|exact Hf].
  - assert (E : newFactEnabled s = false).
    { unfold newFactEnabled; rewrite Hf.
      destruct (mainScreen s); [now rewrite andb_false_r|reflexivity]. }
    rewrite E; split; [exact Hf|reflexivity].
  - split; [|reflexivity].
    destruct (returnControlRendered s); [|exact Hf]. exact Hf.
Qed.

Lemma accepted_request_sets_flag w s :
  newFactEnabled s = true -> isFactLoading (step s (w, regenerateFact)) = true.
Proof.
  intros En; unfold step, dispatch; cbn [fst snd]; rewrite En.
  unfold newFactEnabled, mainScreen in En.
  destruct (returnControlRendered s); [|discriminate].
  unfold handleRegenerateFact_request, bind, get.
  destruct (currentRound s); [|discriminate].
  destruct (isFactLoading s); [|reflexivity].
  rewrite andb_false_r in En; discriminate.
Qed.

Lemma no_request_while_loading s trace :
  forallb notSettling trace = true -> isFactLoading s = true ->
  factRequestsIn s trace = 0.
Proof.
  revert s; induction trace as [|we trace IH]; intros s Hall Hf; [reflexivity|].
  cbn [forallb] in Hall; apply andb_prop in Hall; destruct Hall as [Hwe Hall].
  destruct (factLoading_stays s we Hwe Hf) as [Hf' Hno].
  cbn [factRequestsIn]; rewrite Hno, (IH _ Hall Hf'); reflexivity.
Qed.

(** X18.  Fun-fact requests are serialized: as long as none settles, the
    interface accepts at most one of them, whatever else the player does
    in between (guessing, advancing, returning, choosing a trail). *)
Theorem one_fact_request_at_a_time s trace :
  forallb notSettling trace = true -> factRequestsIn s trace <= 1.
Proof.
  revert s; induction trace as [|we trace IH]; intros s Hall; cbn [factRequestsIn];
    [lia|].
  cbn [forallb] in Hall; apply andb_prop in Hall; destruct Hall as [Hwe Hall].
  destruct (acceptedFactRequest s (snd we)) eqn:Hacc.
  - destruct we as [w [d|choice| | |names|]]; try discriminate.
    cbn [acceptedFactRequest snd] in Hacc.
    rewrite (no_request_while_loading _ trace Hall); [lia|].
    now apply accepted_request_sets_flag.
  - specialize (IH (step s we) Hall); lia.
Qed.

Lemma one_fact_request_at_a_time_witness :
  factRequestsIn initialState
    (lateFact ++ [(threeWorld, selectOption "English Oak");
                  (threeWorld, regenerateFact)]) <= 1.
Proof.
  apply (one_fact_request_at_a_time initialState
           (lateFact ++ [(threeWorld, selectOption "English Oak");
                         (threeWorld, regenerateFact)])).
  reflexivity.
Defined.

Lemma string_rev_app s t acc :
  string_rev (s ++ t)%string acc = string_rev t (string_rev s acc).
Proof.
  revert acc; induction s as [|c s IH]; intros acc; cbn; [reflexivity|apply IH].
Qed.

(** [trim] knows each white-space code point of ECMAScript: at the start of
    a text it is passed over by [trimStart], at the end by [trimEnd]. *)
Lemma trim_passes_white_space :
  Forall (fun ws => forall s,
            trimStart (ws ++ s)%string = trimStart s /\
            trimEnd (s ++ ws)%string = trimEnd s)
    whiteSpaceCodePoints.
Proof.
  unfold whiteSpaceCodePoints; cbn [map].
  repeat (apply Forall_cons;
          [intros s; split; [reflexivity|unfold trimEnd; rewrite string_rev_app; reflexivity]|]).
  apply Forall_nil.
Qed.

Lemma trim_keeps_other_code_points :
  Forall (fun c => trim c = c /\ trim (c ++ " " ++ c)%string = (c ++ " " ++ c)%string)
    otherCodePoints.
Proof.
  unfold otherCodePoints; cbn [map].
  repeat (apply Forall_cons; [split; reflexivity|]).
  apply Forall_nil.
Qed.

Lemma trim_factText : trim factText = "Its sap is boiled into syrup.".
Proof. reflexivity. Qed.

(** X19.  A fun fact that arrives is written into the round that is current when
    it arrives, whatever tree it was asked for: the target of that round
    gets the trimmed text as its fun fact (the text without the white space
    and the line terminators, Unicode ones included, at its two ends) and
    keeps everything else; the loading flag is cleared; status, pool, score
    and the recorded guess are not touched. *)
Theorem fact_lands_on_current_round w names text s p :
  currentRound s = Some p ->
  funFactResponse w (fst names) (snd names) = Some text ->
  exists s',
    handleRegenerateFact_settle w names s = Returned tt s' /\
    currentRound s' = Some (withFunFact (trim text) p) /\
    isFactLoading s' = false /\
    status s' = status s /\ pool s' = pool s /\ score s' = score s /\
    selectedOption s' = selectedOption s /\ isCorrect s' = isCorrect s.
Proof.
  intros Hp Ht.
  destruct (handleRegenerateFact_settle_cases w names s)
    as (s' & E & H1 & H2 & H3 & _ & H5 & H6 & H7 & H8).
  exists s'; rewrite Ht, Hp in H8; repeat split; auto.
Qed.

Lemma fact_lands_on_current_round_witness :
  exists s',
    handleRegenerateFact_settle factWorld ("Sugar Maple", "Sugar Maple sp.")
      (run initialState lateFact) = Returned tt s' /\
    currentRound s'
    = Some (withFunFact (trim factText)
              {| targetTree := treeAt threeWorld threeTrees 1;
                 options := ["English Oak"; "Sugar Maple"; "Silver Birch"];
                 autumnImageUrl := "data:image/png;base64,iVBOR";
                 springImageUrl := None |}) /\
    isFactLoading s' = false /\
    status s' = status (run initialState lateFact) /\
    pool s' = pool (run initialState lateFact) /\
    score s' = score (run initialState lateFact) /\
    selectedOption s' = selectedOption (run initialState lateFact) /\
    isCorrect s' = isCorrect (run initialState lateFact).
Proof.
  apply (fact_lands_on_current_round factWorld
           ("Sugar Maple", "Sugar Maple sp.")
           factText
           (run initialState lateFact)); reflexivity.
Defined.

(** X20.  A fun-fact request that fails is swallowed: the handler returns, the
    round keeps the fact it had, and the loading flag is cleared all the
    same, so that the next request is accepted again. *)
Theorem fact_failure_keeps_fact w names s :
  funFactResponse w (fst names) (snd names) = None ->
  exists s',
    handleRegenerateFact_settle w names s = Returned tt s' /\
    currentRound s' = currentRound s /\
    isFactLoading s' = false /\
    status s' = status s /\ pool s' = pool s /\ score s' = score s.
Proof.
  intros Ht.
  destruct (handleRegenerateFact_settle_cases w names s)
    as (s' & E & H1 & H2 & H3 & _ & H5 & H6 & H7 & H8).
  exists s'; rewrite Ht in H8; repeat split; auto.
Qed.

Lemma fact_failure_keeps_fact_witness :
  exists s',
    handleRegenerateFact_settle threeWorld ("Sugar Maple", "Sugar Maple sp.")
      (run initialState lateFact) = Returned tt s' /\
    currentRound s' = currentRound (run initialState lateFact) /\
    isFactLoading s' = false /\
    status s' = status (run initialState lateFact) /\
    pool s' = pool (run initialState lateFact) /\
    score s' = score (run initialState lateFact).
Proof.
  apply (fact_failure_keeps_fact threeWorld ("Sugar Maple", "Sugar Maple sp.")
           (run initialState lateFact)); reflexivity.
Defined.

(** ** App.tsx: one guess, one point *)

(** X17.  Between two round starts (no trail chosen, no advance) the interface
    accepts one guess at most, whatever the order of clicks, fun facts and
    returns; so a round is worth one point at most. *)
Theorem round_gives_one_point_at_most s trace :
  forallb staysInRound trace = true ->
  guessesIn s trace <= 1 /\
  score (run s trace) <= score s + 1.
Proof.
  intros H; pose proof (one_guess_per_round s trace H) as G.
  split; [exact G|].
  rewrite run_score; pose proof (correct_guesses_are_guesses s trace); lia.
Qed.

Lemma round_gives_one_point_at_most_witness :
  guessesIn firstRoundOpen
    [ (threeWorld, selectOption "Sugar Maple");
      (threeWorld, regenerateFact);
      (threeWorld, selectOption "Sugar Maple");
      (threeWorld, returnToSelection);
      (threeWorld, selectOption "Sugar Maple") ] <= 1 /\
  score (run firstRoundOpen
           [ (threeWorld, selectOption "Sugar Maple");
             (threeWorld, regenerateFact);
             (threeWorld, selectOption "Sugar Maple");
             (threeWorld, returnToSelection);
             (threeWorld, selectOption "Sugar Maple") ])
  <= score firstRoundOpen + 1.
Proof.
  apply (round_gives_one_point_at_most firstRoundOpen
           [ (threeWorld, selectOption "Sugar Maple");
             (threeWorld, regenerateFact);
             (threeWorld, selectOption "Sugar Maple");
             (threeWorld, returnToSelection);
             (threeWorld, selectOption "Sugar Maple") ]).
  reflexivity.
Defined.

(* ================================================================== *)
(** * Properties of the standalone build *)

Module StandaloneFacts.

(** Both builds get the same image, or none, from the same world. *)
Lemma generateTreeImage_state' w description season s :
  match imageOf w description season with
  | Some img => Standalone.generateTreeImage w description season s = Returned img s
  | None => exists e, Standalone.generateTreeImage w description season s = Thrown e s
  end.
Proof.
  unfold imageOf, generateTreeImage, Standalone.generateTreeImage.
  destruct (imageResponse w description season) as [parts|]; cbn.
  - destruct (find _ parts) as [[[data|]]|]; cbn; eauto.
  - eauto.
Qed.

Lemma startRound_cases' w target currentPool s :
  (exists t img, target = Some t /\
     imageOf w (autumnDescription t) autumn = Some img /\
     Standalone.startRound w target currentPool s
     = Returned tt (Standalone.withMessage "Generating botanical imagery..."
                      (roundStarted w t currentPool img s)))
  \/ (match target with
      | Some t => imageOf w (autumnDescription t) autumn = None
      | None => True
      end /\
      Standalone.startRound w target currentPool s
      = Returned tt (Standalone.withMessage "Generating botanical imagery..." (roundFailed s))).
Proof.
  unfold Standalone.startRound, bind, try_catch, deref, ret, throw.
  destruct target as [t|]; cbn -[Standalone.generateTreeImage];
    [|right; split; [exact I|reflexivity]].
  match goal with |- context [Standalone.generateTreeImage w ?d ?x ?s0] =>
    pose proof (generateTreeImage_state' w d x s0) as G end.
  destruct (imageOf w (autumnDescription t) autumn) as [img|] eqn:E.
  - left; exists t, img; split; [reflexivity|]; split; [first [exact E|reflexivity]|].
    rewrite G; reflexivity.
  - right; split; [first [exact E|reflexivity]|]. destruct G as [e G]; rewrite G; reflexivity.
Qed.

Lemma startRound_same w target currentPool s :
  exists s1 s2,
    Standalone.startRound w target currentPool s = Returned tt s1 /\
    startRound w target currentPool s = Returned tt s2 /\
    Standalone.sameButMessage s2 s1.
Proof.
  destruct (startRound_cases' w target currentPool s)
    as [(t & img & -> & Himg & ->)|[Hf ->]].
  - rewrite (startRound_success _ _ _ _ _ Himg).
    eexists; eexists; repeat split.
  - rewrite (startRound_failure _ _ _ _ Hf).
    eexists; eexists; repeat split.
Qed.

Lemma sameButMessage_startRound w target currentPool s s' :
  Standalone.sameButMessage s s' ->
  Standalone.sameButMessage (finalState (startRound w target currentPool s))
                 (finalState (Standalone.startRound w target currentPool s')).
Proof.
  intros (A & B & C & D & E & F & G & H).
  destruct (startRound_cases' w target currentPool s')
    as [(t & img & -> & Himg & ->)|[Hf ->]].
  - rewrite (startRound_success _ _ _ _ _ Himg); cbn; repeat split; auto.
  - rewrite (startRound_failure _ _ _ _ Hf); cbn; repeat split; auto.
Qed.

Lemma initGame_unfold' w d s :
  Standalone.initGame w d s =
  match treeListResponse w d with
  | None =>
      Returned tt
        (withStatus ERROR
           (Standalone.withMessage ("Searching the " ++ toLowerCase (Difficulty_value d)
                         ++ " trail...")%string (trailLoading d s)))
  | Some data =>
      Standalone.startRound w (at_index (assignIds w data) 0) (assignIds w data)
        (withPool (assignIds w data)
           (Standalone.withMessage ("Searching the " ++ toLowerCase (Difficulty_value d)
                         ++ " trail...")%string (trailLoading d s)))
  end.
Proof.
  unfold Standalone.initGame, try_catch, bind, fetchNewTrees;
    cbn -[Standalone.startRound assignIds at_index].
  destruct (treeListResponse w d) as [data|];
    cbn -[Standalone.startRound assignIds at_index]; [|reflexivity].
  set (s1 := withPool (assignIds w data) _).
  transitivity
    (match Standalone.startRound w (at_index (assignIds w data) 0) (assignIds w data) s1
     with
     | Returned a s' => Returned a s'
     | Thrown e s' => setStatus ERROR s'
     end); [reflexivity|].
  destruct (startRound_cases' w (at_index (assignIds w data) 0) (assignIds w data) s1)
    as [(t' & img & _ & _ & ->)|[_ ->]]; reflexivity.
Qed.

Lemma sameButMessage_initGame w d s s' :
  Standalone.sameButMessage s s' ->
  Standalone.sameButMessage (finalState (initGame w d s))
                 (finalState (Standalone.initGame w d s')).
Proof.
  intros (A & B & C & D & E & F & G & H).
  rewrite initGame_unfold, initGame_unfold'.
  destruct (treeListResponse w d) as [data|].
  - apply sameButMessage_startRound; cbn; repeat split; auto.
  - cbn; repeat split; auto.
Qed.

Lemma handleGuess_incorrect' w choice s round :
  currentRound s = Some round ->
  String.eqb choice (commonName (targetTree round)) = false ->
  Standalone.handleGuess w choice s =
  Returned tt
    {| status := RESULT; difficulty := difficulty s;
       currentRound := Some round; pool := pool s; score := score s;
       selectedOption := Some choice; isCorrect := Some false;
       loadingStep := loadingStep s; isFactLoading := isFactLoading s |}.
Proof.
  intros Hr Hc; unfold Standalone.handleGuess, bind, get; rewrite Hr; cbn; rewrite Hc; cbn.
  now rewrite Hr.
Qed.

Lemma handleGuess_correct' w choice s round :
  currentRound s = Some round ->
  String.eqb choice (commonName (targetTree round)) = true ->
  Standalone.handleGuess w choice s =
  Returned tt
    {| status := RESULT; difficulty := difficulty s;
       currentRound :=
         Some {| targetTree := targetTree round; options := options round;
                 autumnImageUrl := autumnImageUrl round;
                 springImageUrl :=
                   match imageOf w (springDescription (targetTree round)) spring with
                   | Some img => Some img
                   | None => springImageUrl round
                   end |};
       pool := pool s; score := score s + 1;
       selectedOption := Some choice; isCorrect := Some true;
       loadingStep := "Waiting for spring blossoms...";
       isFactLoading := isFactLoading s |}.
Proof.
  intros Hr Hc; unfold Standalone.handleGuess, bind, get, try_catch; rewrite Hr; cbn -[Standalone.generateTreeImage]; rewrite Hc; cbn -[Standalone.generateTreeImage].
  match goal with |- context [Standalone.generateTreeImage w ?d ?x ?s0] =>
    pose proof (generateTreeImage_state' w d x s0) as G end.
  destruct (imageOf w _ spring) as [img|].
  - rewrite G; cbn; rewrite Hr; reflexivity.
  - destruct G as [e G]; rewrite G; cbn; rewrite Hr; destruct round; reflexivity.
Qed.

Lemma sameButMessage_handleGuess w choice s s' :
  Standalone.sameButMessage s s' ->
  Standalone.sameButMessage (finalState (handleGuess w choice s))
                            (finalState (Standalone.handleGuess w choice s')).
Proof.
  intros (A & B & C & D & E & F & G & H).
  destruct (currentRound s) as [round|] eqn:Hr.
  - assert (Hr' : currentRound s' = Some round) by congruence.
    destruct (String.eqb choice (commonName (targetTree round))) eqn:Hc.
    + rewrite (handleGuess_correct _ _ _ _ Hr Hc), (handleGuess_correct' _ _ _ _ Hr' Hc).
      unfold Standalone.sameButMessage; cbn; repeat split; congruence.
    + rewrite (handleGuess_incorrect _ _ _ _ Hr Hc),
        (handleGuess_incorrect' _ _ _ _ Hr' Hc).
      unfold Standalone.sameButMessage; cbn; repeat split; congruence.
  - assert (Hr' : currentRound s' = None) by congruence.
    rewrite (handleGuess_no_round _ _ _ Hr).
    unfold Standalone.handleGuess, bind, get; rewrite Hr'.
    unfold Standalone.sameButMessage; cbn; repeat split; congruence.
Qed.

Lemma nextIdx_same s s' : Standalone.sameButMessage s s' -> nextIdx s' = nextIdx s.
Proof.
  intros (A & B & C & D & _); unfold nextIdx; now rewrite C, D.
Qed.

Lemma sameButMessage_nextRound w s s' :
  Standalone.sameButMessage s s' ->
  Standalone.sameButMessage (finalState (nextRound w s))
                            (finalState (Standalone.nextRound w s')).
Proof.
  intros H; pose proof (nextIdx_same s s' H) as N.
  pose proof H as (A & B & C & D & _).
  unfold nextRound, Standalone.nextRound, bind, get; rewrite N, D, B.
  destruct (nextIdx s <? _)%Z.
  - now apply sameButMessage_startRound.
  - destruct (difficulty s); [now apply sameButMessage_initGame|exact H].
Qed.

(** X27.  The handlers of the standalone build and those of [App.tsx] do the
    same to a session: started in states that agree on everything but the
    loading message, [startRound], [initGame], [handleGuess] and
    [nextRound] of either build leave states that again agree on everything
    but the loading message. *)
Theorem standalone_handlers_agree w s s' target currentPool d choice :
  Standalone.sameButMessage s s' ->
  Standalone.sameButMessage (finalState (startRound w target currentPool s))
    (finalState (Standalone.startRound w target currentPool s')) /\
  Standalone.sameButMessage (finalState (initGame w d s))
    (finalState (Standalone.initGame w d s')) /\
  Standalone.sameButMessage (finalState (handleGuess w choice s))
    (finalState (Standalone.handleGuess w choice s')) /\
  Standalone.sameButMessage (finalState (nextRound w s))
    (finalState (Standalone.nextRound w s')).
Proof.
  intros H; split; [now apply sameButMessage_startRound|].
  split; [now apply sameButMessage_initGame|].
  split; [now apply sameButMessage_handleGuess|now apply sameButMessage_nextRound].
Qed.

Lemma standalone_handlers_agree_witness :
  Standalone.sameButMessage
    (finalState (startRound threeWorld (Some (treeAt threeWorld threeTrees 0))
                   (assignIds threeWorld threeTrees) firstRoundOpen))
    (finalState (Standalone.startRound threeWorld (Some (treeAt threeWorld threeTrees 0))
                   (assignIds threeWorld threeTrees) firstRoundOpen)) /\
  Standalone.sameButMessage (finalState (initGame threeWorld HARD firstRoundOpen))
    (finalState (Standalone.initGame threeWorld HARD firstRoundOpen)) /\
  Standalone.sameButMessage
    (finalState (handleGuess threeWorld "Sugar Maple" firstRoundOpen))
    (finalState (Standalone.handleGuess threeWorld "Sugar Maple" firstRoundOpen)) /\
  Standalone.sameButMessage (finalState (nextRound threeWorld firstRoundOpen))
    (finalState (Standalone.nextRound threeWorld firstRoundOpen)).
Proof.
  apply (standalone_handlers_agree threeWorld firstRoundOpen firstRoundOpen
           (Some (treeAt threeWorld threeTrees 0)) (assignIds threeWorld threeTrees)
           HARD "Sugar Maple").
  repeat split.
Defined.

(** ** The error screen of the standalone build *)

Lemma error_step s we : status s = ERROR -> Standalone.step s we = s.
Proof.
  intros H; destruct we as [w ev]; unfold Standalone.step, Standalone.dispatch.
  cbn [fst snd].
  unfold Standalone.optionRendered, Standalone.nextRendered,
    Standalone.mainScreenRendered; rewrite H; cbn.
  destruct ev; reflexivity.
Qed.

(** X28.  In the standalone build [ERROR] is final: its screen has no control,
    so that no sequence of events, the return to the trailhead included,
    changes anything of the state. *)
Theorem standalone_error_is_final s trace :
  status s = ERROR -> Standalone.run s trace = s.
Proof.
  intros H; induction trace as [|we trace IH]; [reflexivity|].
  unfold Standalone.run in *; cbn [fold_left]; now rewrite (error_step s we H).
Qed.

Lemma standalone_error_is_final_witness :
  Standalone.run (Standalone.step initialState (rejectingWorld, selectDifficulty EASY))
    [ (threeWorld, returnToSelection); (threeWorld, selectDifficulty EASY);
      (threeWorld, selectOption "Sugar Maple") ]
  = Standalone.step initialState (rejectingWorld, selectDifficulty EASY).
Proof.
  apply (standalone_error_is_final
           (Standalone.step initialState (rejectingWorld, selectDifficulty EASY))).
  reflexivity.
Defined.

(** X29.  Without an API key (none, or the placeholder left in place) the
    standalone build mounts into [ERROR] and stays there: nothing the player
    does starts a trail, and the score stays 0. *)
Theorem standalone_needs_api_key apiKey trace :
  apiKey = EmptyString \/ apiKey = "API_KEY_PLACEHOLDER" ->
  Standalone.run (Standalone.mounted apiKey) trace = withStatus ERROR initialState /\
  score (Standalone.run (Standalone.mounted apiKey) trace) = 0.
Proof.
  intros H.
  assert (E : Standalone.mounted apiKey = withStatus ERROR initialState)
    by (destruct H as [-> | ->]; reflexivity).
  rewrite E.
  assert (R : Standalone.run (withStatus ERROR initialState) trace
              = withStatus ERROR initialState).
  { induction trace as [|we trace IH]; [reflexivity|].
    unfold Standalone.run in *; cbn [fold_left].
    now rewrite (error_step (withStatus ERROR initialState) we eq_refl). }
  rewrite R; split; reflexivity.
Qed.

Lemma standalone_needs_api_key_witness :
  Standalone.run (Standalone.mounted "API_KEY_PLACEHOLDER")
    [ (threeWorld, selectDifficulty EASY); (threeWorld, returnToSelection) ]
  = withStatus ERROR initialState /\
  score (Standalone.run (Standalone.mounted "API_KEY_PLACEHOLDER")
           [ (threeWorld, selectDifficulty EASY); (threeWorld, returnToSelection) ]) = 0.
Proof.
  apply (standalone_needs_api_key "API_KEY_PLACEHOLDER"
           [ (threeWorld, selectDifficulty EASY); (threeWorld, returnToSelection) ]).
  now right.
Defined.

(** ** Guessing in the standalone build *)

Lemma accepted_guess_leaves_guessing w s choice :
  Standalone.optionRendered s choice = true ->
  status (Standalone.step s (w, selectOption choice)) = RESULT.
Proof.
  intros En; unfold Standalone.step, Standalone.dispatch; cbn [fst snd]; rewrite En.
  unfold Standalone.optionRendered in En.
  destruct (currentRound s) as [round|] eqn:Hr;
    [|rewrite andb_false_r in En; discriminate].
  destruct (String.eqb choice (commonName (targetTree round))) eqn:Hc.
  - now rewrite (handleGuess_correct' _ _ _ _ Hr Hc).
  - now rewrite (handleGuess_incorrect' _ _ _ _ Hr Hc).
Qed.

Lemma not_guessing_stays s we :
  staysInRound we = true -> status s <> GUESSING ->
  status (Standalone.step s we) <> GUESSING /\
  Standalone.acceptedGuess s (snd we) = false.
Proof.
  destruct we as [w ev]; unfold staysInRound, Standalone.step, Standalone.dispatch;
    cbn [fst snd].
  intros Hev Hs.
  assert (Hg : GameStatus_eqb (status s) GUESSING = false)
    by (destruct (status s); try reflexivity; now elim Hs).
  destruct ev as [d|choice| | |names|]; try discriminate;
    cbn [Standalone.acceptedGuess].
  - unfold Standalone.optionRendered; rewrite Hg, andb_false_r; cbn; auto.
  - auto.
  - auto.
  - split; [|reflexivity].
    destruct (Standalone.mainScreenRendered s); [cbn; discriminate|exact Hs].
Qed.

Lemma no_guess_outside_guessing s trace :
  forallb staysInRound trace = true -> status s <> GUESSING ->
  Standalone.guessesIn s trace = 0.
Proof.
  revert s; induction trace as [|we trace IH]; intros s Hall Hs; [reflexivity|].
  cbn [forallb] in Hall; apply andb_prop in Hall; destruct Hall as [Hwe Hall].
  destruct (not_guessing_stays s we Hwe Hs) as [Hs' Hno].
  cbn [Standalone.guessesIn]; rewrite Hno, (IH _ Hall Hs'); reflexivity.
Qed.

(** X30.  The option buttons of the standalone build are never [disabled], and
    yet a round takes one guess at most: an accepted guess takes the session
    out of [GUESSING], where alone the buttons exist, and nothing but a new
    round brings it back. *)
Theorem standalone_one_guess_per_round s trace :
  forallb staysInRound trace = true -> Standalone.guessesIn s trace <= 1.
Proof.
  revert s; induction trace as [|we trace IH]; intros s Hall;
    cbn [Standalone.guessesIn]; [lia|].
  cbn [forallb] in Hall; apply andb_prop in Hall; destruct Hall as [Hwe Hall].
  destruct (Standalone.acceptedGuess s (snd we)) eqn:Hacc.
  - destruct we as [w [d|choice| | |names|]]; try discriminate.
    cbn [Standalone.acceptedGuess snd] in Hacc.
    rewrite (no_guess_outside_guessing _ trace Hall); [lia|].
    rewrite (accepted_guess_leaves_guessing w s choice Hacc); discriminate.
  - specialize (IH (Standalone.step s we) Hall); lia.
Qed.

Lemma standalone_one_guess_per_round_witness :
  Standalone.guessesIn firstRoundOpen
    [ (threeWorld, selectOption "Silver Birch");
      (threeWorld, selectOption "Sugar Maple");
      (threeWorld, selectOption "Silver Birch") ] <= 1.
Proof.
  apply (standalone_one_guess_per_round firstRoundOpen
           [ (threeWorld, selectOption "Silver Birch");
             (threeWorld, selectOption "Sugar Maple");
             (threeWorld, selectOption "Silver Birch") ]).
  reflexivity.
Defined.

End StandaloneFacts.

(* ================================================================== *)
(** * Further properties of the globe *)

Module GlobeMore.

Import Globe GlobeFacts.
Local Open Scope R_scope.

(** ** The render loop *)

Lemma frames_app locations clocks clocks' s :
  frames locations (clocks ++ clocks') s
  = frames locations clocks' (frames locations clocks s).
Proof. unfold frames; apply fold_left_app. Qed.

Lemma render_handles locations clock s :
  frameCallbacks s = [] ->
  frameCallbacks (render locations clock s) = [nextHandle s] /\
  animationFrameId (render locations clock s) = Some (nextHandle s) /\
  nextHandle (render locations clock s) = S (nextHandle s).
Proof. intros H; cbn; rewrite H; repeat split. Qed.

Lemma frame_handles locations clock s h :
  frameCallbacks s = [h] ->
  frameCallbacks (frame locations clock s) = [nextHandle s] /\
  animationFrameId (frame locations clock s) = Some (nextHandle s) /\
  nextHandle (frame locations clock s) = S (nextHandle s) /\
  rotation (frame locations clock s) = rotation s + 25 / 100.
Proof. intros H; unfold frame; rewrite H; cbn; repeat split. Qed.

Lemma loop_state locations clock0 clocks :
  let s := frames locations clocks (start locations clock0) in
  frameCallbacks s = [S (List.length clocks)] /\
  animationFrameId s = Some (S (List.length clocks)) /\
  nextHandle s = S (S (List.length clocks)) /\
  rotation s = (INR (List.length clocks) + 1) * (25 / 100).
Proof.
  induction clocks as [|clock clocks IH] using rev_ind; cbv zeta.
  - cbn; repeat split; lra.
  - rewrite frames_app, length_app; cbn [List.length frames fold_left].
    cbv zeta in IH; destruct IH as (A & B & C & D).
    destruct (frame_handles locations clock _ _ A) as (A' & B' & C' & D').
    rewrite A', B', C', D', C, D, plus_INR.
    replace (List.length clocks + 1)%nat with (S (List.length clocks)) by lia.
    cbn [INR]; repeat split; destruct (List.length clocks); cbn; lra.
Qed.

(** X21.  The running loop in closed form.  After the first [render] and [n]
    further refreshes, [rotation] is [(n + 1) * 0.25]; exactly one callback
    is pending, the one [animationFrameId] holds: the loop neither dies nor
    multiplies. *)
Theorem render_loop_closed_form locations clock0 clocks :
  let s := frames locations clocks (start locations clock0) in
  rotation s = (INR (List.length clocks) + 1) * (25 / 100) /\
  (exists h, frameCallbacks s = [h] /\ animationFrameId s = Some h) /\
  List.length (frameCallbacks s) = 1%nat.
Proof.
  intros s; destruct (loop_state locations clock0 clocks) as (A & B & C & D).
  fold s in A, B, C, D.
  split; [exact D|]. split; [eauto|now rewrite A].
Qed.

Lemma frame_idle_all locations clock s :
  frameCallbacks s = [] ->
  frameCallbacks (frame locations clock s) = [] /\
  rotation (frame locations clock s) = rotation s /\
  projection (frame locations clock s) = projection s /\
  canvas (frame locations clock s) = canvas s.
Proof. intros H; unfold frame; rewrite H; repeat split. Qed.

Lemma frames_idle_all locations clocks s :
  frameCallbacks s = [] ->
  frameCallbacks (frames locations clocks s) = [] /\
  rotation (frames locations clocks s) = rotation s /\
  projection (frames locations clocks s) = projection s /\
  canvas (frames locations clocks s) = canvas s.
Proof.
  revert s; induction clocks as [|clock clocks IH]; intros s H; [now repeat split|].
  change (frames locations (clock :: clocks) s)
    with (frames locations clocks (frame locations clock s)).
  destruct (frame_idle_all locations clock s H) as (A & B & C & D).
  destruct (IH _ A) as (A' & B' & C' & D').
  repeat split; congruence.
Qed.

(** X22.  After the cleanup of the effect the globe is frozen: however many
    refreshes follow, no callback is pending any more, nothing is drawn
    (the canvas keeps its last picture) and neither [rotation] nor the
    projection moves. *)
Theorem stop_freezes_the_globe locations clock0 clocks clocks' :
  let s := frames locations clocks (start locations clock0) in
  let s' := frames locations clocks' (stop s) in
  frameCallbacks s' = [] /\
  canvas s' = canvas s /\
  rotation s' = rotation s /\
  projection s' = projection s.
Proof.
  intros s s'.
  assert (Rs : running s) by apply frames_running, start_running.
  destruct (frames_idle_all locations clocks' (stop s) (stop_cancels s Rs))
    as (A & B & C & D).
  repeat split; assumption.
Qed.

Lemma Int_part_succ x : Int_part (x + 1) = (Int_part x + 1)%Z.
Proof.
  symmetry; apply Int_part_spec; rewrite plus_IZR.
  destruct (base_Int_part x); lra.
Qed.

Lemma rem_full_turn r : 0 <= r -> rem (r + 360) 360 = rem r 360.
Proof.
  intros H; unfold rem.
  assert (H' : 0 <= r / 360) by (apply Rle_mult_inv_pos; lra).
  assert (H'' : 0 <= (r + 360) / 360) by (apply Rle_mult_inv_pos; lra).
  rewrite (trunc_nonneg _ H'), (trunc_nonneg _ H'').
  replace ((r + 360) / 360) with (r / 360 + 1) by field.
  rewrite Int_part_succ, plus_IZR; lra.
Qed.

(** X23.  The view repeats after a full turn: 1440 refreshes later the
    projection is the one it was, so that what is drawn for a location at a
    given reading of the clock is the same. *)
Theorem view_repeats_every_1440_frames locations clock0 clocks turn now loc :
  List.length turn = 1440%nat ->
  let s := frames locations clocks (start locations clock0) in
  let s' := frames locations turn s in
  rotation s' = rotation s + 360 /\
  projection s' = projection s /\
  marker (projection s') now loc = marker (projection s) now loc.
Proof.
  intros Hturn s s'.
  assert (Rs : running s) by apply frames_running, start_running.
  assert (Rs' : running s') by now apply frames_running.
  assert (E : rotation s' = rotation s + 360).
  { unfold s', s; rewrite <- frames_app.
    destruct (loop_state locations clock0 (clocks ++ turn)) as (_ & _ & _ & ->).
    destruct (loop_state locations clock0 clocks) as (_ & _ & _ & ->).
    rewrite length_app, plus_INR, Hturn.
    replace (INR 1440) with 1440 by (rewrite INR_IZR_INZ; reflexivity).
    lra. }
  assert (P : projection s' = projection s).
  { destruct Rs as (_ & Hr & ->), Rs' as (_ & _ & ->).
    rewrite E; unfold rotate; cbn [fst snd].
    now rewrite rem_full_turn. }
  split; [exact E|]. split; [exact P|now rewrite P].
Qed.

Lemma view_repeats_every_1440_frames_witness :
  rotation (frames [] (repeat (fun _ => 0%Z) 1440) (frames [] [] (start [] (fun _ => 0%Z))))
  = rotation (frames [] [] (start [] (fun _ => 0%Z))) + 360 /\
  projection (frames [] (repeat (fun _ => 0%Z) 1440)
                (frames [] [] (start [] (fun _ => 0%Z))))
  = projection (frames [] [] (start [] (fun _ => 0%Z))) /\
  marker (projection (frames [] (repeat (fun _ => 0%Z) 1440)
                        (frames [] [] (start [] (fun _ => 0%Z)))))
    0 {| lat := 48 # 1; lng := 2 # 1; label := None |}
  = marker (projection (frames [] [] (start [] (fun _ => 0%Z))))
      0 {| lat := 48 # 1; lng := 2 # 1; label := None |}.
Proof.
  apply (view_repeats_every_1440_frames [] (fun _ => 0%Z) []
           (repeat (fun _ => 0%Z) 1440) 0
           {| lat := 48 # 1; lng := 2 # 1; label := None |}).
  apply repeat_length.
Defined.

(** ** The markers *)


End GlobeMore.
